(** * mvt: a shallow embedding of the Mapbox Vector Tile encoder (mvt.go)

    Bytes are modelled as [Z] in [0, 256), Go's fixed-width integers as [Z]
    with the wrap-around of every conversion written out ([int] is the
    64-bit one), byte slices and Go strings as [list Z], float64 as Rocq's
    primitive binary64 floats.  A panic is the result [None]. *)

From Stdlib Require Import ZArith List Lia Bool.
From Stdlib Require Import Floats DecimalString Ascii String.
From stdpp Require Import base option list gmap.

Local Open Scope Z_scope.

Set Warnings "-inexact-float".

(** ** Go's integer conversions *)

Definition uint64 (z : Z) : Z := z mod 2 ^ 64.
Definition uint32 (z : Z) : Z := z mod 2 ^ 32.
Definition int64 (z : Z) : Z := (z + 2 ^ 63) mod 2 ^ 64 - 2 ^ 63.
Definition to_byte (z : Z) : Z := z mod 256.

(** [len] of a slice or string, as a Go [int]. *)
Definition len {A} (l : list A) : Z := Z.of_nat (length l).

(** ** encoding/binary: PutUvarint, PutVarint, Uvarint, Varint *)

Definition MaxVarintLen64 : Z := 10.

(** The loop [for x >= 0x80 { buf[i] = byte(x) | 0x80; x >>= 7; i++ }]
    followed by [buf[i] = byte(x)].  The fuel bounds the number of
    iterations; [PutUvarint] supplies [log2 x], which always suffices
    (see [PutUvarint_unfold]). *)
Fixpoint PutUvarint_loop (fuel : nat) (x : Z) : list Z :=
  match fuel with
  | O => [to_byte x]
  | S k =>
      if 128 <=? x
      then Z.lor (to_byte x) 128 :: PutUvarint_loop k (Z.shiftr x 7)
      else [to_byte x]
  end.

Definition PutUvarint (x : Z) : list Z :=
  PutUvarint_loop (Z.to_nat (Z.log2 x)) x.

(** [ux := uint64(x) << 1; if x < 0 { ux = ^ux }; PutUvarint(buf, ux)] *)
Definition PutVarint (x : Z) : list Z :=
  let ux := uint64 (Z.shiftl (uint64 x) 1) in
  let ux := if x <? 0 then Z.lxor ux (2 ^ 64 - 1) else ux in
  PutUvarint ux.

(** [Uvarint] returns the value and the number of bytes read; the count is
    0 when the buffer is too small and negative on overflow. *)
Fixpoint Uvarint_loop (buf : list Z) (x s i : Z) : Z * Z :=
  match buf with
  | [] => (0, 0)
  | b :: buf' =>
      if i =? MaxVarintLen64 then (0, - (i + 1))
      else if b <? 128 then
        if (i =? MaxVarintLen64 - 1) && (1 <? b) then (0, - (i + 1))
        else (Z.lor x (uint64 (Z.shiftl b s)), i + 1)
      else
        Uvarint_loop buf' (Z.lor x (uint64 (Z.shiftl (Z.land b 127) s)))
                     (s + 7) (i + 1)
  end.

Definition Uvarint (buf : list Z) : Z * Z := Uvarint_loop buf 0 0 0.

(** [x := int64(ux >> 1); if ux&1 != 0 { x = ^x }] *)
Definition Varint (buf : list Z) : Z * Z :=
  let '(ux, n) := Uvarint buf in
  let x := int64 (Z.shiftr ux 1) in
  ((if Z.land ux 1 =? 0 then x else - x - 1), n).

(** The zigzag map of a signed varint, as arithmetic: what [PutVarint]
    hands to [PutUvarint] ([PutVarint_zigzag]). *)
Definition zigzag (x : Z) : Z := if x <? 0 then - 2 * x - 1 else 2 * x.

(** ** mvt.go: the append helpers *)


Definition appendUvarint (pb : list Z) (n : Z) : list Z := pb ++ PutUvarint n.
Definition appendVarint (pb : list Z) (n : Z) : list Z := pb ++ PutVarint n.
Definition appendString (pb : list Z) (s : list Z) : list Z :=
  appendUvarint pb (uint64 (len s)) ++ s.

(** ** Tag values

    [AddTag] takes an [interface{}]; the model is the closed sum of the
    dynamic types that [encodeValue]'s type switch tells apart.  A float is
    carried by its IEEE-754 bit pattern ([math.Float32bits],
    [math.Float64bits]), which is all the encoder looks at.  [VInt] and
    [VUint] are Go's platform-sized [int] and [uint]; [VOther] is any other
    dynamic type, carried by the text [fmt.Sprintf("%v", v)] gives it. *)

Inductive value : Type :=
  | VString (s : list Z)
  | VUint64 (n : Z)
  | VFloat32 (bits : Z)
  | VFloat64 (bits : Z)
  | VInt64 (n : Z)
  | VBool (b : bool)
  | VUint8 (n : Z)
  | VUint16 (n : Z)
  | VUint32 (n : Z)
  | VInt8 (n : Z)
  | VInt16 (n : Z)
  | VInt32 (n : Z)
  | VBytes (b : list Z)
  | VInt (n : Z)
  | VUint (n : Z)
  | VOther (text : list Z).

(** The bytes of a Rocq string, as a Go string. *)
Definition bytes_of_string (s : String.string) : list Z :=
  map (fun a => Z.of_N (Ascii.N_of_ascii a)) (String.list_ascii_of_string s).

(** [fmt.Sprintf("%v", n)] for an integer [n]: its decimal numeral. *)
Definition Sprintf_v_int (n : Z) : list Z :=
  bytes_of_string (DecimalString.NilZero.string_of_int (Z.to_int n)).

(** [binary.LittleEndian.PutUint32] and [PutUint64]. *)
Definition PutUint32 (v : Z) : list Z :=
  [to_byte v; to_byte (Z.shiftr v 8); to_byte (Z.shiftr v 16);
   to_byte (Z.shiftr v 24)].

Definition PutUint64 (v : Z) : list Z :=
  [to_byte v; to_byte (Z.shiftr v 8); to_byte (Z.shiftr v 16);
   to_byte (Z.shiftr v 24); to_byte (Z.shiftr v 32); to_byte (Z.shiftr v 40);
   to_byte (Z.shiftr v 48); to_byte (Z.shiftr v 56)].

Definition encodeKey (key : list Z) : list Z := appendString [26] key.

(** The tail of [encodeValue]: [pb = 34, uvarint(len(vpb)), vpb...]. *)
Definition wrapValue (vpb : list Z) : list Z :=
  appendUvarint [34] (uint64 (len vpb)) ++ vpb.

(** The inner Value submessage [vpb] of the six cases of the type switch
    that do not recurse. *)
Definition vpbString (s : list Z) : list Z := [10] ++ appendString [] s.
Definition vpbUint64 (n : Z) : list Z := [40] ++ appendUvarint [] n.
Definition vpbFloat32 (bits : Z) : list Z := 21 :: PutUint32 bits.
Definition vpbFloat64 (bits : Z) : list Z := 25 :: PutUint64 bits.
Definition vpbInt64 (n : Z) : list Z := appendVarint [48] n.
Definition vpbBool (b : bool) : list Z := if b then [56; 1] else [56; 0].

(** The Value submessage of a tag value.  The recursive calls of the source
    ([return encodeValue(uint64(v))] and the like) always land in one of the
    six cases above, so they are written as that case at the converted
    value; [encodeValue_uint8] and its siblings state the source's
    equations. *)
Definition valueSubmessage (v : value) : list Z :=
  match v with
  | VString s => vpbString s
  | VUint64 n => vpbUint64 n
  | VFloat32 bits => vpbFloat32 bits
  | VFloat64 bits => vpbFloat64 bits
  | VInt64 n => vpbInt64 n
  | VBool b => vpbBool b
  | VUint8 n | VUint16 n | VUint32 n => vpbUint64 (uint64 n)
  | VInt8 n | VInt16 n | VInt32 n => vpbInt64 (int64 n)
  | VBytes b => vpbString b
  | VInt n | VUint n => vpbString (Sprintf_v_int n)
  | VOther text => vpbString text
  end.

Definition encodeValue (v : value) : list Z := wrapValue (valueSubmessage v).

(** The values a Go program can build: every integer within its type. *)
Definition value_wf (v : value) : Prop :=
  match v with
  | VString s | VBytes s | VOther s => len s < 2 ^ 63
  | VUint64 n | VFloat64 n => 0 <= n < 2 ^ 64
  | VFloat32 n | VUint32 n => 0 <= n < 2 ^ 32
  | VInt64 n | VInt n => - 2 ^ 63 <= n < 2 ^ 63
  | VUint n => 0 <= n < 2 ^ 64
  | VBool _ => True
  | VUint8 n => 0 <= n < 2 ^ 8
  | VUint16 n => 0 <= n < 2 ^ 16
  | VInt8 n => - 2 ^ 7 <= n < 2 ^ 7
  | VInt16 n => - 2 ^ 15 <= n < 2 ^ 15
  | VInt32 n => - 2 ^ 31 <= n < 2 ^ 31
  end.

(** ** float64 conversions

    [int64(f)] truncates toward zero.  For NaN, the infinities and values
    outside int64 the Go specification leaves the result to the
    implementation; the model returns what amd64 does, the "integer
    indefinite" value [-2^63]. *)

Definition trunc_SF (f : spec_float) : option Z :=
  match f with
  | S754_zero _ => Some 0
  | S754_finite s m e =>
      let a := if 0 <=? e then Z.pos m * 2 ^ e else Z.pos m / 2 ^ (- e) in
      Some (if s then - a else a)
  | S754_infinity _ | S754_nan => None
  end.

Definition int64_of_float (f : float) : Z :=
  match trunc_SF (Prim2SF f) with
  | Some t => if (- 2 ^ 63 <=? t) && (t <? 2 ^ 63) then t else - 2 ^ 63
  | None => - 2 ^ 63
  end.

(** [float64(n)] for an integer [n]: the nearest binary64, ties to even. *)
Definition float64_of_int (n : Z) : float :=
  SF2Prim (binary_normalize prec emax n 0 false).

(** ** Geometry commands *)

Inductive which_t : Type := moveTo | lineTo | closePath.

(** The constants [moveTo = 1], [lineTo = 2], [closePath = 7]. *)
Definition which_id (w : which_t) : Z :=
  match w with moveTo => 1 | lineTo => 2 | closePath => 7 end.

Definition which_eqb (a b : which_t) : bool :=
  match a, b with
  | moveTo, moveTo | lineTo, lineTo | closePath, closePath => true
  | _, _ => false
  end.

Module command.
Record t : Type := mk { which : which_t; x : float; y : float }.
End command.

Record tag : Type := mkTag { key : list Z; val : value }.

(** [GeometryType] is a [byte]; any byte can reach [AddFeature]. *)
Definition GeometryType : Type := Z.
Definition Unknown : GeometryType := 0.
Definition Point : GeometryType := 1.
Definition LineString : GeometryType := 2.
Definition Polygon : GeometryType := 3.

(** [uint32((id & 0x7) | (count << 3))], on Go [int]s. *)
Definition commandInteger (id count : Z) : Z :=
  uint32 (Z.lor (Z.land id 7) (int64 (Z.shiftl count 3))).

(** [int64(v / 256.0 * extent)] *)
Definition scaled (v extent : float) : Z :=
  int64_of_float (PrimFloat.mul (PrimFloat.div v 256) extent).

Module Feature.
Record t : Type := mk {
  geomType : GeometryType;
  id : Z;
  hasID : bool;
  tags : list tag;
  geometry : list command.t
}.

(** The builder methods. *)
Definition SetID (f : t) (i : Z) : t :=
  mk (geomType f) i true (tags f) (geometry f).
Definition AddTag (f : t) (k : list Z) (v : value) : t :=
  mk (geomType f) (id f) (hasID f) (tags f ++ [mkTag k v]) (geometry f).
Definition push (f : t) (c : command.t) : t :=
  mk (geomType f) (id f) (hasID f) (tags f) (geometry f ++ [c]).
Definition MoveTo (f : t) (x y : float) : t := push f (command.mk moveTo x y).
Definition LineTo (f : t) (x y : float) : t := push f (command.mk lineTo x y).
Definition ClosePath (f : t) : t := push f (command.mk closePath 0 0).

(** The curve flattener.  [math.Hypot] is a parameter; the arithmetic is
    binary64, one rounding per operation. *)
Section Curves.
Variable Hypot : float -> float -> float.

Local Open Scope float_scope.

Definition quadratic (x0 y0 x1 y1 x2 y2 t : float) : float * float :=
  let u := 1 - t in
  let a := u * u in
  let b := 2 * u * t in
  let c := t * t in
  (a * x0 + b * x1 + c * x2, a * y0 + b * y1 + c * y2).

Definition cubic (x0 y0 x1 y1 x2 y2 x3 y3 t : float) : float * float :=
  let u := 1 - t in
  let a := u * u * u in
  let b := 3 * u * u * t in
  let c := 3 * u * t * t in
  let d := t * t * t in
  (a * x0 + b * x1 + c * x2 + d * x3, a * y0 + b * y1 + c * y2 + d * y3).

(** [x0, y0]: the last point of the geometry, or [(0, 0)]. *)
Definition lastPoint (f : t) : float * float :=
  match last (geometry f) with
  | Some c => (command.x c, command.y c)
  | None => (0, 0)
  end.

(** [n := int(l + 0.5); if n < 4 { n = 4 }] *)
Definition segments (l : float) : Z :=
  let n := int64_of_float (l + 0.5) in
  if (n <? 4)%Z then 4%Z else n.

(** The loop [for i := 0; i < n; i++], with [k] iterations left. *)
Fixpoint flatten (curve : float -> float * float) (k : nat) (i : Z)
    (d : float) (f : t) : t :=
  match k with
  | O => f
  | S k' =>
      let '(x, y) := curve (float64_of_int i / d) in
      flatten curve k' (i + 1)%Z d (LineTo f x y)
  end.

Definition QuadraticTo (f : t) (x1 y1 x2 y2 : float) : t :=
  let '(x0, y0) := lastPoint f in
  let l := Hypot (x1 - x0) (y1 - y0) + Hypot (x2 - x1) (y2 - y1) in
  let n := segments l in
  let d := float64_of_int n - 1 in
  flatten (quadratic x0 y0 x1 y1 x2 y2) (Z.to_nat n) 0%Z d f.

Definition CubicTo (f : t) (x1 y1 x2 y2 x3 y3 : float) : t :=
  let '(x0, y0) := lastPoint f in
  let l := Hypot (x1 - x0) (y1 - y0) + Hypot (x2 - x1) (y2 - y1)
           + Hypot (x3 - x2) (y3 - y2) in
  let n := segments l in
  let d := float64_of_int n - 1 in
  flatten (cubic x0 y0 x1 y1 x2 y2 x3 y3) (Z.to_nat n) 0%Z d f.
End Curves.

(** [for range f.tags]: two entries of [tagidxs] are read and dropped per
    tag; [None] is the index-out-of-range panic of [tagidxs[0]],
    [tagidxs[1]] or [tagidxs[2:]]. *)
Fixpoint appendTags (ts : list tag) (pb : list Z) (tagidxs : list Z)
  : option (list Z * list Z) :=
  match ts with
  | [] => Some (pb, tagidxs)
  | _ :: ts' =>
      match tagidxs with
      | k :: v :: rest =>
          appendTags ts' (appendUvarint (appendUvarint pb (uint64 k)) (uint64 v))
                     rest
      | _ => None
      end
  end.

(** The inner loop [for j := i + 1; j < len(f.geometry); j++] that counts
    the operations after position [i] that repeat [which]. *)
Fixpoint countRun (w : which_t) (rest : list command.t) : Z :=
  match rest with
  | [] => 0
  | c :: rest' =>
      if which_eqb (command.which c) w then 1 + countRun w rest' else 0
  end.

(** The loop [for j := 0; j < count; j++] over [f.geometry[i+j]]. *)
Fixpoint appendCoords (cs : list command.t) (extent : float)
    (gpb : list Z) (lastx lasty : Z) : list Z * Z * Z :=
  match cs with
  | [] => (gpb, lastx, lasty)
  | c :: cs' =>
      let x := scaled (command.x c) extent in
      let y := scaled (command.y c) extent in
      let relx := int64 (x - lastx) in
      let rely := int64 (y - lasty) in
      appendCoords cs' extent (appendVarint (appendVarint gpb relx) rely) x y
  end.

(** The loop [for i := 0; i < len(f.geometry); { ... }]; [g] is
    [f.geometry[i:]].  Every iteration advances [i], so the length of
    [g] is enough fuel ([appendGeometry]). *)
Fixpoint appendCommands (fuel : nat) (g : list command.t) (extent : float)
    (gpb : list Z) (lastx lasty : Z) : list Z :=
  match fuel, g with
  | _, [] => gpb
  | O, _ => gpb
  | S fuel', c :: rest =>
      let which := command.which c in
      let count := 1 + countRun which rest in
      let gpb := appendUvarint gpb (uint64 (commandInteger (which_id which) count)) in
      match which with
      | closePath => appendCommands fuel' rest extent gpb lastx lasty
      | moveTo | lineTo =>
          let '(gpb, lastx, lasty) :=
            appendCoords (take (Z.to_nat count) g) extent gpb lastx lasty in
          appendCommands fuel' (drop (Z.to_nat count) g) extent gpb lastx lasty
      end
  end.

(** The body of [if len(f.geometry) > 0]: the bytes [gpb].  The counter
    [total] of the source is written but never read and is left out. *)
Definition appendGeometry (g : list command.t) (extent : float) : list Z :=
  let gpb :=
    match g with
    | c :: _ =>
        if which_eqb (command.which c) moveTo then []
        else appendVarint (appendVarint
               (appendUvarint [] (uint64 (commandInteger (which_id moveTo) 1))) 0) 0
    | [] => []
    end in
  appendCommands (length g) g extent gpb 0 0.

(** The Feature submessage [pb], and what is left of [tagidxs]. *)
Definition body (f : t) (tagidxs : list Z) (extent : float)
  : option (list Z * list Z) :=
  let pb := [] in
  let pb := if hasID f then appendUvarint (pb ++ [8]) (id f) else pb in
  match
    (if 0 <? len (tags f)
     then appendTags (tags f)
            (appendUvarint (pb ++ [18]) (uint64 (len (tags f) * 2))) tagidxs
     else Some (pb, tagidxs))
  with
  | None => None
  | Some (pb, tagidxs) =>
      let pb := if geomType f =? Unknown then pb
                else appendUvarint (pb ++ [24]) (uint64 (geomType f)) in
      let pb :=
        if 0 <? len (geometry f)
        then let gpb := appendGeometry (geometry f) extent in
             appendUvarint (pb ++ [34]) (uint64 (len gpb)) ++ gpb
        else pb in
      Some (pb, tagidxs)
  end.

Definition append (f : t) (vpb : list Z) (tagidxs : list Z) (extent : float)
  : option (list Z * list Z) :=
  match body f tagidxs extent with
  | None => None
  | Some (pb, tagidxs) =>
      Some (appendUvarint (vpb ++ [18]) (uint64 (len pb)) ++ pb, tagidxs)
  end.
End Feature.

(** A tile's bounding rectangle as [TileBounds] returns it. *)
Record bounds : Type := mkBounds {
  minLat : float; minLon : float; maxLat : float; maxLon : float
}.

Module Layer.
Record t : Type := mk {
  name : list Z;
  features : list Feature.t;
  extent : Z;
  hasExtent : bool;
  z : Z; x : Z; y : Z;
  rect : option bounds
}.

Definition SetExtent (l : t) (e : Z) : t :=
  mk (name l) (features l) e true (z l) (x l) (y l) (rect l).

Definition AddFeature (l : t) (geomType : GeometryType) : t :=
  mk (name l) (features l ++ [Feature.mk geomType 0 false [] []])
     (extent l) (hasExtent l) (z l) (x l) (y l) (rect l).

(** The locals of [collectTags]. *)
Record tables : Type := mkTables {
  keysa : list (list Z);
  valsa : list (list Z);
  tagidxs : list Z;
  keyidx : Z;
  validx : Z;
  keys : gmap (list Z) Z;
  vals : gmap (list Z) Z
}.

Definition noTables : tables := mkTables [] [] [] 0 0 ∅ ∅.

(** The body of the inner loop [for _, tag := range feature.tags]. *)
Definition collectTag (st : tables) (tg : tag) : tables :=
  let k := encodeKey (key tg) in
  let st :=
    match keys st !! k with
    | None =>
        mkTables (keysa st ++ [k]) (valsa st) (tagidxs st ++ [keyidx st])
                 (keyidx st + 1) (validx st)
                 (<[k := keyidx st]> (keys st)) (vals st)
    | Some idx =>
        mkTables (keysa st) (valsa st) (tagidxs st ++ [idx])
                 (keyidx st) (validx st) (keys st) (vals st)
    end in
  let v := encodeValue (val tg) in
  match vals st !! v with
  | None =>
      mkTables (keysa st) (valsa st ++ [v]) (tagidxs st ++ [validx st])
               (keyidx st) (validx st + 1)
               (keys st) (<[v := validx st]> (vals st))
  | Some idx =>
      mkTables (keysa st) (valsa st) (tagidxs st ++ [idx])
               (keyidx st) (validx st) (keys st) (vals st)
  end.

Definition collectFeature (st : tables) (f : Feature.t) : tables :=
  fold_left collectTag (Feature.tags f) st.

Definition collectTags (l : t) : list (list Z) * list (list Z) * list Z :=
  let st := fold_left collectFeature (features l) noTables in
  (keysa st, valsa st, tagidxs st).

(** [var extent float64 = 4096; if l.hasExtent { extent = float64(l.extent) }] *)
Definition scaleExtent (l : t) : float :=
  if hasExtent l then float64_of_int (extent l) else 4096%float.

(** The loop [for _, feature := range l.features]. *)
Fixpoint appendFeatures (fs : list Feature.t) (pb : list Z)
    (tagidxs : list Z) (extent : float) : option (list Z * list Z) :=
  match fs with
  | [] => Some (pb, tagidxs)
  | f :: fs' =>
      match Feature.append f pb tagidxs extent with
      | None => None
      | Some (pb, tagidxs) => appendFeatures fs' pb tagidxs extent
      end
  end.

(** The Layer submessage [pb]. *)
Definition body (l : t) : option (list Z) :=
  let '(keysa, valsa, tagidxs) := collectTags l in
  let pb := [] in
  let pb := if 0 <? len (name l)
            then appendUvarint (pb ++ [10]) (uint64 (len (name l))) ++ name l
            else pb in
  match appendFeatures (features l) pb tagidxs (scaleExtent l) with
  | None => None
  | Some (pb, _) =>
      let pb := fold_left (fun pb v => pb ++ v) keysa pb in
      let pb := fold_left (fun pb v => pb ++ v) valsa pb in
      let pb := if hasExtent l && negb (extent l =? 4096)
                then appendUvarint (pb ++ [40]) (uint64 (extent l))
                else pb in
      Some (pb ++ [120; 2])
  end.

Definition append (l : t) (vpb : list Z) : option (list Z) :=
  match body l with
  | None => None
  | Some pb => Some (appendUvarint (vpb ++ [26]) (uint64 (len pb)) ++ pb)
  end.
End Layer.

Module Tile.
Record t : Type := mk {
  layers : list Layer.t;
  z : Z; x : Z; y : Z;
  rect : option bounds
}.

Definition AddLayer (tl : t) (name : list Z) : t :=
  mk (layers tl ++ [Layer.mk name [] 0 false (z tl) (x tl) (y tl) (rect tl)])
     (z tl) (x tl) (y tl) (rect tl).

(** The loop [for _, layer := range t.layers]. *)
Fixpoint appendLayers (ls : list Layer.t) (pb : list Z) : option (list Z) :=
  match ls with
  | [] => Some pb
  | l :: ls' =>
      match Layer.append l pb with
      | None => None
      | Some pb => appendLayers ls' pb
      end
  end.

Definition Render (tl : t) : option (list Z) := appendLayers (layers tl) [].
End Tile.

(** ** Projection helpers *)

Definition gMinLat : float := (-85.05112878)%float.
Definition gMaxLat : float := 85.05112878%float.
Definition gMinLon : float := (-180)%float.
Definition gMaxLon : float := 180%float.
Definition gTileSize : Z := 256.
Definition Pi : float := 3.14159265358979323846264338327950288419716939937510582097494459%float.

(** [math.Max] and [math.Min], with their special cases. *)
Definition is_pos_inf (f : float) : bool := PrimFloat.eqb f infinity.
Definition is_neg_inf (f : float) : bool := PrimFloat.eqb f neg_infinity.

Definition Max (x y : float) : float :=
  if is_pos_inf x || is_pos_inf y then infinity
  else if is_nan x || is_nan y then nan
  else if is_zero x && PrimFloat.eqb x y then (if get_sign x then y else x)
  else if PrimFloat.ltb y x then x else y.

Definition Min (x y : float) : float :=
  if is_neg_inf x || is_neg_inf y then neg_infinity
  else if is_nan x || is_nan y then nan
  else if is_zero x && PrimFloat.eqb x y then (if get_sign x then x else y)
  else if PrimFloat.ltb x y then x else y.

Definition clamp (v lo hi : float) : float := Min (Max v lo) hi.

Definition tileXYToPixelXY (tileX tileY : Z) : Z * Z :=
  (int64 (Z.shiftl tileX 8), int64 (Z.shiftl tileY 8)).

(** [gTileSize << levelOfDetail] as a uint64; a negative shift count
    panics ([None]). *)
Definition gMapSize (levelOfDetail : Z) : option Z :=
  if levelOfDetail <? 0 then None
  else Some (uint64 (Z.shiftl gTileSize levelOfDetail)).

Section Projection.
Variables Atan Exp : float -> float.

Local Open Scope float_scope.

Definition pixelXYToLatLon (pixelX pixelY levelOfDetail : Z)
  : option (float * float) :=
  match gMapSize levelOfDetail with
  | None => None
  | Some sz =>
      let mapSize := float64_of_int sz in
      let x := clamp (float64_of_int pixelX) 0 (mapSize - 1) / mapSize - 0.5 in
      let y := 0.5 - clamp (float64_of_int pixelY) 0 (mapSize - 1) / mapSize in
      let lat := 90 - 360 * Atan (Exp (- y * 2 * Pi)) / Pi in
      let lon := 360 * x in
      Some (lat, lon)
  end.

(** [TileBounds]; [None] is the panic of a shift by a negative count. *)
Definition TileBounds (tileX tileY tileZ : Z) : option bounds :=
  let levelOfDetail := tileZ in
  if (levelOfDetail <? 0)%Z then None
  else
    let size := int64 (Z.shiftl 1 levelOfDetail) in
    let '(pixelX, pixelY) := tileXYToPixelXY tileX tileY in
    match pixelXYToLatLon pixelX pixelY levelOfDetail with
    | None => None
    | Some (maxLat0, minLon0) =>
        let '(pixelX, pixelY) :=
          tileXYToPixelXY (int64 (tileX + 1)) (int64 (tileY + 1)) in
        match pixelXYToLatLon pixelX pixelY levelOfDetail with
        | None => None
        | Some (minLat0, maxLon0) =>
            let minLon1 :=
              if ((size =? 0) || (Z.rem tileX size =? 0))%Z
              then gMinLon else minLon0 in
            let maxLon1 :=
              if ((size =? 0) || (Z.rem tileX size =? int64 (size - 1)))%Z
              then gMaxLon else maxLon0 in
            let maxLat1 := if (tileY <=? 0)%Z then gMaxLat else maxLat0 in
            let minLat1 :=
              if (int64 (size - 1) <=? tileY)%Z then gMinLat else minLat0 in
            Some (mkBounds minLat1 minLon1 maxLat1 maxLon1)
        end
    end.

Definition NewTile (tileX tileY tileZ : Z) : option Tile.t :=
  match TileBounds tileX tileY tileZ with
  | None => None
  | Some b => Some (Tile.mk [] tileZ tileX tileY (Some b))
  end.
End Projection.

(** ** Builder programs

    [AddLayer] and [AddFeature] hand out pointers into the tile; a pointer
    is modelled by the position of the layer in the tile and of the feature
    in its layer, and a method call through it by [alter] at that position. *)

Section Builder.
Variable Hypot : float -> float -> float.

Inductive op : Type :=
  | OpAddLayer (name : list Z)
  | OpSetExtent (l : nat) (extent : Z)
  | OpAddFeature (l : nat) (geomType : GeometryType)
  | OpSetID (l f : nat) (id : Z)
  | OpAddTag (l f : nat) (k : list Z) (v : value)
  | OpMoveTo (l f : nat) (x y : float)
  | OpLineTo (l f : nat) (x y : float)
  | OpClosePath (l f : nat)
  | OpQuadraticTo (l f : nat) (x1 y1 x2 y2 : float)
  | OpCubicTo (l f : nat) (x1 y1 x2 y2 x3 y3 : float).

Definition onLayer (g : Layer.t -> Layer.t) (l : nat) (tl : Tile.t) : Tile.t :=
  Tile.mk (alter g l (Tile.layers tl))
          (Tile.z tl) (Tile.x tl) (Tile.y tl) (Tile.rect tl).

Definition onFeature (g : Feature.t -> Feature.t) (l f : nat) (tl : Tile.t)
  : Tile.t :=
  onLayer (fun ly =>
    Layer.mk (Layer.name ly) (alter g f (Layer.features ly))
             (Layer.extent ly) (Layer.hasExtent ly)
             (Layer.z ly) (Layer.x ly) (Layer.y ly) (Layer.rect ly)) l tl.

Definition step (tl : Tile.t) (o : op) : Tile.t :=
  match o with
  | OpAddLayer name => Tile.AddLayer tl name
  | OpSetExtent l e => onLayer (fun ly => Layer.SetExtent ly e) l tl
  | OpAddFeature l gt => onLayer (fun ly => Layer.AddFeature ly gt) l tl
  | OpSetID l f i => onFeature (fun ft => Feature.SetID ft i) l f tl
  | OpAddTag l f k v => onFeature (fun ft => Feature.AddTag ft k v) l f tl
  | OpMoveTo l f x y => onFeature (fun ft => Feature.MoveTo ft x y) l f tl
  | OpLineTo l f x y => onFeature (fun ft => Feature.LineTo ft x y) l f tl
  | OpClosePath l f => onFeature Feature.ClosePath l f tl
  | OpQuadraticTo l f x1 y1 x2 y2 =>
      onFeature (fun ft => Feature.QuadraticTo Hypot ft x1 y1 x2 y2) l f tl
  | OpCubicTo l f x1 y1 x2 y2 x3 y3 =>
      onFeature (fun ft => Feature.CubicTo Hypot ft x1 y1 x2 y2 x3 y3) l f tl
  end.

Definition build (tl : Tile.t) (ops : list op) : Tile.t := fold_left step ops tl.
End Builder.

(** ** Reading the output back

    The decoders below are not part of mvt.go (the package only writes);
    they read the protobuf wire format and the MVT geometry stream the way
    a consumer of the tile does, and are what the theorems observe the
    rendered bytes through. *)

Inductive wire : Type :=
  | WVarint (v : Z)
  | WFixed64 (b : list Z)
  | WBytes (b : list Z)
  | WFixed32 (b : list Z).

(** One protobuf field: the tag varint [(number << 3) | wiretype], then
    the payload the wire type announces. *)
Definition parseField (buf : list Z) : option (Z * wire * list Z) :=
  let '(tg, n) := Uvarint buf in
  if n <=? 0 then None
  else
    let rest := drop (Z.to_nat n) buf in
    let number := Z.shiftr tg 3 in
    match Z.land tg 7 with
    | 0 =>
        let '(v, m) := Uvarint rest in
        if m <=? 0 then None
        else Some (number, WVarint v, drop (Z.to_nat m) rest)
    | 1 =>
        if len rest <? 8 then None
        else Some (number, WFixed64 (take 8 rest), drop 8 rest)
    | 2 =>
        let '(l, m) := Uvarint rest in
        if m <=? 0 then None
        else
          let rest := drop (Z.to_nat m) rest in
          if len rest <? l then None
          else Some (number, WBytes (take (Z.to_nat l) rest),
                     drop (Z.to_nat l) rest)
    | 5 =>
        if len rest <? 4 then None
        else Some (number, WFixed32 (take 4 rest), drop 4 rest)
    | _ => None
    end.

Fixpoint parseFields (fuel : nat) (buf : list Z) : option (list (Z * wire)) :=
  match buf with
  | [] => Some []
  | _ :: _ =>
      match fuel with
      | O => None
      | S fuel' =>
          match parseField buf with
          | None => None
          | Some (number, w, rest) =>
              match parseFields fuel' rest with
              | None => None
              | Some fs => Some ((number, w) :: fs)
              end
          end
      end
  end.

(** A message is parsed with one unit of fuel per byte. *)
Definition parseMessage (buf : list Z) : option (list (Z * wire)) :=
  parseFields (length buf) buf.

(** A decoded geometry command: its id, its count and its coordinate pairs. *)
Record gcommand : Type := mkG { gid : Z; gcount : Z; gpairs : list (Z * Z) }.

Fixpoint readPairs (count : nat) (buf : list Z)
  : option (list (Z * Z) * list Z) :=
  match count with
  | O => Some ([], buf)
  | S count' =>
      let '(dx, n) := Varint buf in
      if n <=? 0 then None
      else
        let buf := drop (Z.to_nat n) buf in
        let '(dy, m) := Varint buf in
        if m <=? 0 then None
        else
          match readPairs count' (drop (Z.to_nat m) buf) with
          | None => None
          | Some (ps, rest) => Some ((dx, dy) :: ps, rest)
          end
  end.

(** One command integer [(id & 7) | (count << 3)] and, for MoveTo and
    LineTo, [count] pairs of zigzag varints. *)
Definition readCommand (buf : list Z) : option (gcommand * list Z) :=
  let '(c, n) := Uvarint buf in
  if n <=? 0 then None
  else
    let rest := drop (Z.to_nat n) buf in
    let i := Z.land c 7 in
    let count := Z.shiftr c 3 in
    if (i =? 1) || (i =? 2) then
      match readPairs (Z.to_nat count) rest with
      | None => None
      | Some (ps, rest) => Some (mkG i count ps, rest)
      end
    else if i =? 7 then Some (mkG i count [], rest)
    else None.

Fixpoint decodeGeometry (fuel : nat) (buf : list Z) : option (list gcommand) :=
  match buf with
  | [] => Some []
  | _ :: _ =>
      match fuel with
      | O => None
      | S fuel' =>
          match readCommand buf with
          | None => None
          | Some (g, rest) =>
              match decodeGeometry fuel' rest with
              | None => None
              | Some gs => Some (g :: gs)
              end
          end
      end
  end.

Definition readGeometry (buf : list Z) : option (list gcommand) :=
  decodeGeometry (length buf) buf.

(** ** The specification's words *)

(** The entries of a list in first-seen order, each once. *)
Definition addNew {A} `{EqDecision A} (acc : list A) (a : A) : list A :=
  if decide (a ∈ acc) then acc else acc ++ [a].

Definition firstSeen {A} `{EqDecision A} (l : list A) : list A :=
  fold_left addNew l [].

(** The position of the first [a] in [l] (the length of [l] if there is none). *)
Fixpoint position {A} `{EqDecision A} (a : A) (l : list A) : Z :=
  match l with
  | [] => 0
  | b :: l' => if decide (a = b) then 0 else 1 + position a l'
  end.

(** The tags of a layer, in feature order then tag order. *)
Definition allTags (l : Layer.t) : list tag :=
  concat (map Feature.tags (Layer.features l)).

Definition tagPair (keysa valsa : list (list Z)) (tg : tag) : list Z :=
  [position (encodeKey (key tg)) keysa; position (encodeValue (val tg)) valsa].

(** The maximal runs of operations of one kind. *)
Fixpoint runs (g : list command.t) : list (which_t * Z) :=
  match g with
  | [] => []
  | c :: rest =>
      match runs rest with
      | (w, k) :: rs =>
          if which_eqb (command.which c) w then (w, k + 1) :: rs
          else (command.which c, 1) :: (w, k) :: rs
      | [] => [(command.which c, 1)]
      end
  end.

(** The scaled, truncated points of the MoveTo and LineTo operations. *)
Definition isPoint (c : command.t) : bool :=
  negb (which_eqb (command.which c) closePath).

Definition points (g : list command.t) (extent : float) : list (Z * Z) :=
  map (fun c => (scaled (command.x c) extent, scaled (command.y c) extent))
      (List.filter isPoint g).

(** Each point minus the one before it, in int64 arithmetic. *)
Fixpoint deltas (lastx lasty : Z) (pts : list (Z * Z)) : list (Z * Z) :=
  match pts with
  | [] => []
  | (x, y) :: pts' => (int64 (x - lastx), int64 (y - lasty)) :: deltas x y pts'
  end.

(** The synthesized [MoveTo(0,0)]: present when the first operation is not
    a MoveTo. *)
Definition needsMove (g : list command.t) : bool :=
  match g with
  | c :: _ => negb (which_eqb (command.which c) moveTo)
  | [] => false
  end.

(** A length-delimited field: the one-byte tag [t], the length of the
    payload as a varint, the payload.  Keys, values, features and layers
    are all written in this shape. *)
Definition frame (t : Z) (payload : list Z) : list Z :=
  t :: PutUvarint (uint64 (len payload)) ++ payload.

(** [buf] parses to the fields [fs] within one unit of fuel per byte. *)
Definition parsesTo (buf : list Z) (fs : list (Z * wire)) : Prop :=
  exists fuel, (fuel <= length buf)%nat /\ parseFields fuel buf = Some fs.


(** [buf] decodes to the geometry commands [cmds] within one unit of fuel
    per byte. *)
Definition decodesTo (buf : list Z) (cmds : list gcommand) : Prop :=
  exists fuel, (fuel <= length buf)%nat /\ decodeGeometry fuel buf = Some cmds.

(** The scaled, truncated point of one operation. *)
Definition scaledPoint (extent : float) (c : command.t) : Z * Z :=
  (scaled (command.x c) extent, scaled (command.y c) extent).




(** What the loop of the packer emits for the runs of a geometry: one
    command per run of MoveTo or LineTo; for a run of [k] ClosePath, which
    the loop leaves one operation at a time, [k] commands with the counts
    [k], [k - 1], ..., [1] ([packer_commands]). *)
Fixpoint countdown (k : nat) : list (which_t * Z) :=
  match k with
  | O => []
  | S k' => (closePath, Z.of_nat k) :: countdown k'
  end.

Definition emittedRun (r : which_t * Z) : list (which_t * Z) :=
  match fst r with
  | closePath => countdown (Z.to_nat (snd r))
  | moveTo | lineTo => [r]
  end.

Definition emitted (g : list command.t) : list (which_t * Z) :=
  concat (map emittedRun (runs g)).

Definition commandOf (c : gcommand) : Z * Z := (gid c, gcount c).
Definition commandFor (r : which_t * Z) : Z * Z := (which_id (fst r), snd r).

(** ** Invariants of the tag-collection pass *)

Definition encKey (tg : tag) : list Z := encodeKey (key tg).
Definition encVal (tg : tag) : list Z := encodeValue (val tg).

(** A lookup map agrees with its table: it holds exactly the entries of
    the table, each with its position, and the counter is the table's
    length. *)
Definition tableInv (arr : list (list Z)) (idx : Z) (m : gmap (list Z) Z) : Prop :=
  idx = len arr
  /\ forall a, m !! a = if decide (a ∈ arr) then Some (position a arr) else None.

(** The state of [collectTags] after the tags [ts]. *)
Definition collectInv (ts : list tag) (st : Layer.tables) : Prop :=
  Layer.keysa st = firstSeen (map encKey ts)
  /\ Layer.valsa st = firstSeen (map encVal ts)
  /\ tableInv (Layer.keysa st) (Layer.keyidx st) (Layer.keys st)
  /\ tableInv (Layer.valsa st) (Layer.validx st) (Layer.vals st)
  /\ Layer.tagidxs st =
       concat (map (tagPair (Layer.keysa st) (Layer.valsa st)) ts).

(** ** Observers for the further properties *)

(** [binary.LittleEndian.Uint32] and [Uint64]: the readers of [PutUint32]
    and [PutUint64]. *)
Fixpoint littleEndian (b : list Z) : Z :=
  match b with
  | [] => 0
  | x :: b' => x + 256 * littleEndian b'
  end.

(** The value the type switch of [encodeValue] ends up encoding: one of the
    six cases that do not recurse. *)
Definition canonical (v : value) : value :=
  match v with
  | VString _ | VUint64 _ | VFloat32 _ | VFloat64 _ | VInt64 _ | VBool _ => v
  | VUint8 n | VUint16 n | VUint32 n => VUint64 (uint64 n)
  | VInt8 n | VInt16 n | VInt32 n => VInt64 (int64 n)
  | VBytes b => VString b
  | VInt n | VUint n => VString (Sprintf_v_int n)
  | VOther text => VString text
  end.

Definition isPrimary (v : value) : bool :=
  match v with
  | VString _ | VUint64 _ | VFloat32 _ | VFloat64 _ | VInt64 _ | VBool _ => true
  | _ => false
  end.

(** The one field a reader finds in the Value submessage of a value. *)
Definition valueField (v : value) : Z * wire :=
  match canonical v with
  | VString s => (1, WBytes s)
  | VFloat32 bits => (2, WFixed32 (PutUint32 bits))
  | VFloat64 bits => (3, WFixed64 (PutUint64 bits))
  | VUint64 n => (5, WVarint n)
  | VInt64 n => (6, WVarint (zigzag n))
  | VBool b => (7, WVarint (if b then 1 else 0))
  | _ => (0, WVarint 0)
  end.

(** The packed tag indices of a feature: one varint per index. *)
Definition packedIndices (idxs : list Z) : list Z :=
  concat (map (fun k => PutUvarint (uint64 k)) idxs).

(** What the builder keeps: a later state of a feature, a layer or a tile
    extends an earlier one when nothing was removed or reordered. *)
Definition featureExtends (f f' : Feature.t) : Prop :=
  Feature.geomType f' = Feature.geomType f
  /\ (exists more, Feature.tags f' = Feature.tags f ++ more)
  /\ (exists more, Feature.geometry f' = Feature.geometry f ++ more).

Definition layerExtends (l l' : Layer.t) : Prop :=
  Layer.name l' = Layer.name l
  /\ forall j f, Layer.features l !! j = Some f ->
       exists f', Layer.features l' !! j = Some f' /\ featureExtends f f'.

Definition tileExtends (tl tl' : Tile.t) : Prop :=
  forall i l, Tile.layers tl !! i = Some l ->
    exists l', Tile.layers tl' !! i = Some l' /\ layerExtends l l'.

(** * Theorems *)

(** ** Integer conversions *)

Lemma uint64_small z : 0 <= z < 2 ^ 64 -> uint64 z = z.
Proof. intros H. unfold uint64. apply Z.mod_small. exact H. Qed.

Lemma int64_small z : - 2 ^ 63 <= z < 2 ^ 63 -> int64 z = z.
Proof. intros H. unfold int64. rewrite Z.mod_small; lia. Qed.

Lemma uint64_range z : 0 <= uint64 z < 2 ^ 64.
Proof. unfold uint64. apply Z.mod_pos_bound. lia. Qed.

Lemma int64_range z : - 2 ^ 63 <= int64 z < 2 ^ 63.
Proof.
  unfold int64. pose proof (Z.mod_pos_bound (z + 2 ^ 63) (2 ^ 64)). lia.
Qed.

Lemma len_nonneg {A} (l : list A) : 0 <= len l.
Proof. unfold len. lia. Qed.

Lemma len_app {A} (l1 l2 : list A) : len (l1 ++ l2) = len l1 + len l2.
Proof. unfold len. rewrite length_app. lia. Qed.

(** ** Bit-level facts used by the varint codec *)

Lemma land_low_high a b s :
  0 <= s -> 0 <= a < 2 ^ s -> Z.land a (b * 2 ^ s) = 0.
Proof.
  intros Hs Ha. apply Z.bits_inj'. intros n Hn.
  rewrite Z.land_spec, Z.bits_0.
  destruct (Z.lt_ge_cases n s) as [Hlt | Hge].
  - rewrite Z.mul_pow2_bits_low by lia. apply andb_false_r.
  - rewrite <- (Z.mod_small a (2 ^ s)) by lia.
    rewrite Z.mod_pow2_bits_high by lia. reflexivity.
Qed.

Lemma lor_low_high a b s :
  0 <= s -> 0 <= a < 2 ^ s -> Z.lor a (b * 2 ^ s) = a + b * 2 ^ s.
Proof.
  intros Hs Ha. pose proof (land_low_high a b s Hs Ha) as H0.
  rewrite <- Z.lxor_lor by exact H0.
  symmetry. apply Z.add_nocarry_lxor. exact H0.
Qed.

Lemma continuation_ge b : 0 <= b -> 128 <= Z.lor b 128.
Proof.
  intros Hb.
  assert (Hbit : Z.testbit (Z.lor b 128) 7 = true).
  { rewrite Z.lor_spec. replace (Z.testbit 128 7) with true by reflexivity.
    apply orb_true_r. }
  assert (Hnn : 0 <= Z.lor b 128) by (apply Z.lor_nonneg; lia).
  destruct (Z.lt_ge_cases (Z.lor b 128) 128) as [Hlt | Hge]; [| lia].
  rewrite <- (Z.mod_small (Z.lor b 128) (2 ^ 7)) in Hbit by lia.
  rewrite Z.mod_pow2_bits_high in Hbit by lia. discriminate.
Qed.

Lemma continuation_low x :
  Z.land (Z.lor (to_byte x) 128) 127 = x mod 128.
Proof.
  unfold to_byte. rewrite Z.land_lor_distr_l.
  replace (Z.land 128 127) with 0 by reflexivity. rewrite Z.lor_0_r.
  change 127 with (Z.ones 7). rewrite Z.land_ones by lia.
  change (2 ^ 7) with 128.
  apply Z.mod_mod_divide. exists 2. reflexivity.
Qed.

(** ** PutUvarint: the fuel never runs out *)

Lemma PutUvarint_loop_fuel f1 : forall f2 x,
  0 <= x -> Z.log2 x <= Z.of_nat f1 -> Z.log2 x <= Z.of_nat f2 ->
  PutUvarint_loop f1 x = PutUvarint_loop f2 x.
Proof.
  induction f1 as [| f1 IH]; intros f2 x Hx H1 H2.
  - assert (x < 128).
    { destruct (Z.lt_ge_cases x 128) as [|Hge]; [lia|].
      pose proof (Z.log2_le_mono 128 x Hge) as Hl.
      change (Z.log2 128) with 7 in Hl. simpl in H1. lia. }
    destruct f2; simpl; [reflexivity|].
    destruct (Z.leb_spec 128 x); [lia | reflexivity].
  - destruct f2 as [| f2]; simpl.
    + assert (x < 128).
      { destruct (Z.lt_ge_cases x 128) as [|Hge]; [lia|].
        pose proof (Z.log2_le_mono 128 x Hge) as Hl.
        change (Z.log2 128) with 7 in Hl. simpl in H2. lia. }
      destruct (Z.leb_spec 128 x); [lia | reflexivity].
    + destruct (Z.leb_spec 128 x) as [Hge | Hlt]; [| reflexivity].
      f_equal. apply IH.
      * apply Z.shiftr_nonneg. exact Hx.
      * rewrite Z.log2_shiftr by lia. lia.
      * rewrite Z.log2_shiftr by lia. lia.
Qed.

(** The loop equation of [PutUvarint], as the source writes it. *)
Lemma PutUvarint_unfold x :
  0 <= x ->
  PutUvarint x =
    if 128 <=? x then Z.lor (to_byte x) 128 :: PutUvarint (Z.shiftr x 7)
    else [to_byte x].
Proof.
  intros Hx. unfold PutUvarint at 1.
  rewrite (PutUvarint_loop_fuel _ (S (Z.to_nat (Z.log2 x))) x Hx).
  - simpl. destruct (Z.leb_spec 128 x) as [Hge | Hlt]; [| reflexivity].
    f_equal. apply PutUvarint_loop_fuel.
    + apply Z.shiftr_nonneg. exact Hx.
    + rewrite Z.log2_shiftr by lia.
      pose proof (Z.log2_nonneg x). lia.
    + pose proof (Z.log2_nonneg (Z.shiftr x 7)). lia.
  - pose proof (Z.log2_nonneg x). lia.
  - pose proof (Z.log2_nonneg x). lia.
Qed.

(** ** Uvarint reads back what PutUvarint wrote *)

Lemma shifted_fits y i :
  0 <= i <= 9 -> 0 <= y < 2 ^ (64 - 7 * i) -> 0 <= y * 2 ^ (7 * i) < 2 ^ 64.
Proof.
  intros Hi Hy.
  assert (H64 : 2 ^ 64 = 2 ^ (64 - 7 * i) * 2 ^ (7 * i)).
  { rewrite <- Z.pow_add_r by lia. f_equal. lia. }
  assert (0 < 2 ^ (7 * i)) by (apply Z.pow_pos_nonneg; lia).
  rewrite H64. split; [apply Z.mul_nonneg_nonneg; lia |].
  apply Z.mul_lt_mono_pos_r; lia.
Qed.

Lemma Uvarint_loop_last y rest acc i :
  0 <= i <= 9 -> 0 <= y < 128 -> y < 2 ^ (64 - 7 * i) ->
  0 <= acc < 2 ^ (7 * i) ->
  Uvarint_loop (to_byte y :: rest) acc (7 * i) i = (acc + y * 2 ^ (7 * i), i + 1).
Proof.
  intros Hi Hy Hfit Hacc. unfold to_byte. rewrite Z.mod_small by lia.
  cbn [Uvarint_loop]. unfold MaxVarintLen64.
  destruct (Z.eqb_spec i 10); [lia |].
  destruct (Z.ltb_spec y 128); [| lia].
  assert (Hov : (i =? 10 - 1) && (1 <? y) = false).
  { destruct (Z.eqb_spec i (10 - 1)) as [-> |]; [| reflexivity].
    change (2 ^ (64 - 7 * (10 - 1))) with 2 in Hfit.
    destruct (Z.ltb_spec 1 y); [lia | reflexivity]. }
  rewrite Hov. f_equal.
  rewrite Z.shiftl_mul_pow2 by lia.
  rewrite uint64_small by (apply shifted_fits; lia).
  apply lor_low_high; lia.
Qed.

Lemma Uvarint_loop_put fuel : forall y rest acc i,
  0 <= y -> Z.log2 y <= Z.of_nat fuel -> 0 <= i <= 9 ->
  0 <= acc < 2 ^ (7 * i) -> y < 2 ^ (64 - 7 * i) ->
  Uvarint_loop (PutUvarint_loop fuel y ++ rest) acc (7 * i) i =
    (acc + y * 2 ^ (7 * i), i + len (PutUvarint_loop fuel y)).
Proof.
  induction fuel as [| fuel IH]; intros y rest acc i Hy Hlog Hi Hacc Hfit.
  - assert (y < 128).
    { destruct (Z.lt_ge_cases y 128) as [|Hge]; [lia|].
      pose proof (Z.log2_le_mono 128 y Hge) as Hl.
      change (Z.log2 128) with 7 in Hl. simpl in Hlog. lia. }
    simpl. apply Uvarint_loop_last; lia.
  - simpl. destruct (Z.leb_spec 128 y) as [Hge | Hlt].
    2:{ simpl. apply Uvarint_loop_last; lia. }
    assert (Hi8 : i <= 8).
    { destruct (Z.eq_dec i 9) as [-> |]; [| lia].
      change (2 ^ (64 - 7 * 9)) with 2 in Hfit. lia. }
    assert (Hp : 2 ^ (64 - 7 * i) = 128 * 2 ^ (64 - 7 * (i + 1))).
    { change 128 with (2 ^ 7). rewrite <- Z.pow_add_r by lia. f_equal. lia. }
    assert (Hq : 2 ^ (7 * (i + 1)) = 128 * 2 ^ (7 * i)).
    { change 128 with (2 ^ 7). rewrite <- Z.pow_add_r by lia. f_equal. lia. }
    assert (Hpos : 0 < 2 ^ (7 * i)) by (apply Z.pow_pos_nonneg; lia).
    pose proof (Z.div_mod y 128 ltac:(lia)) as Hdm.
    pose proof (Z.mod_pos_bound y 128 ltac:(lia)) as Hmod.
    assert (Hdiv : 0 <= y / 128) by (apply Z.div_pos; lia).
    cbn [app Uvarint_loop]. unfold MaxVarintLen64.
    destruct (Z.eqb_spec i 10); [lia |].
    pose proof (continuation_ge (to_byte y)
                  ltac:(unfold to_byte; apply Z.mod_pos_bound; lia)) as Hc.
    destruct (Z.ltb_spec (Z.lor (to_byte y) 128) 128); [lia |].
    rewrite continuation_low.
    rewrite Z.shiftl_mul_pow2 by lia.
    rewrite uint64_small.
    2:{ apply shifted_fits; [lia |]. split; [lia |].
        apply Z.lt_le_trans with 128; [lia |].
        change 128 with (2 ^ 7). apply Z.pow_le_mono_r; lia. }
    rewrite lor_low_high by lia.
    replace (7 * i + 7) with (7 * (i + 1)) by lia.
    rewrite Z.shiftr_div_pow2 by lia. change (2 ^ 7) with 128.
    rewrite IH.
    + f_equal.
      * rewrite Hq. rewrite Hdm at 3. ring.
      * unfold len. cbn [length]. lia.
    + exact Hdiv.
    + replace (y / 128) with (Z.shiftr y 7)
        by (rewrite Z.shiftr_div_pow2 by lia; reflexivity).
      rewrite Z.log2_shiftr by lia. lia.
    + lia.
    + rewrite Hq. nia.
    + apply Z.div_lt_upper_bound; [lia |]. rewrite <- Hp. exact Hfit.
Qed.

Lemma Uvarint_PutUvarint n rest :
  0 <= n < 2 ^ 64 ->
  Uvarint (PutUvarint n ++ rest) = (n, len (PutUvarint n)).
Proof.
  intros Hn. unfold Uvarint, PutUvarint.
  pose proof (Uvarint_loop_put (Z.to_nat (Z.log2 n)) n rest 0 0) as H.
  change (7 * 0) with 0 in H. change (2 ^ 0) with 1 in H.
  rewrite H.
  - f_equal. lia.
  - lia.
  - pose proof (Z.log2_nonneg n). lia.
  - lia.
  - lia.
  - change (2 ^ (64 - 0)) with (2 ^ 64). lia.
Qed.

Lemma PutUvarint_length_pos x : 0 < len (PutUvarint x).
Proof.
  unfold PutUvarint, len.
  destruct (Z.to_nat (Z.log2 x)); simpl; [lia |].
  destruct (128 <=? x); simpl; lia.
Qed.

(** At most ten bytes are written, so the eleven scratch bytes suffice. *)
Lemma PutUvarint_loop_length fuel : forall x k,
  0 <= x < 2 ^ (7 * k) -> 1 <= k ->
  len (PutUvarint_loop fuel x) <= k.
Proof.
  induction fuel as [| fuel IH]; intros x k Hx Hk; simpl.
  - unfold len. simpl. lia.
  - destruct (Z.leb_spec 128 x) as [Hge | Hlt].
    2:{ unfold len. simpl. lia. }
    assert (2 <= k).
    { destruct (Z.eq_dec k 1) as [-> |]; [| lia].
      change (2 ^ (7 * 1)) with 128 in Hx. lia. }
    unfold len. cbn [length]. rewrite Nat2Z.inj_succ.
    specialize (IH (Z.shiftr x 7) (k - 1)). unfold len in IH.
    assert (Z.of_nat (length (PutUvarint_loop fuel (Z.shiftr x 7))) <= k - 1);
      [| lia].
    apply IH; [| lia].
    rewrite Z.shiftr_div_pow2 by lia. split; [apply Z.div_pos; lia |].
    apply Z.div_lt_upper_bound; [lia |].
    rewrite <- Z.pow_add_r by lia. replace (7 + 7 * (k - 1)) with (7 * k) by lia.
    lia.
Qed.

Lemma PutUvarint_length n : 0 <= n < 2 ^ 64 -> len (PutUvarint n) <= 10.
Proof.
  intros Hn. unfold PutUvarint. apply PutUvarint_loop_length; [| lia].
  split; [lia |]. apply Z.lt_le_trans with (2 ^ 64); [lia |].
  apply Z.pow_le_mono_r; lia.
Qed.

(** ** Zigzag *)

Lemma lxor_all_ones a : 0 <= a < 2 ^ 64 -> Z.lxor a (2 ^ 64 - 1) = 2 ^ 64 - 1 - a.
Proof.
  intros Ha.
  replace (2 ^ 64 - 1 - a) with ((- a - 1) mod 2 ^ 64)
    by (symmetry; apply Z.mod_unique_pos with (q := -1); lia).
  change (2 ^ 64 - 1) with (Z.ones 64).
  apply Z.bits_inj'. intros n Hn.
  rewrite Z.lxor_spec.
  destruct (Z.lt_ge_cases n 64) as [Hlt | Hge].
  - rewrite Z.ones_spec_low by lia.
    rewrite Z.mod_pow2_bits_low by lia.
    replace (- a - 1) with (Z.lnot a) by (unfold Z.lnot; lia).
    rewrite Z.lnot_spec by lia. apply xorb_true_r.
  - rewrite Z.ones_spec_high by lia.
    rewrite Z.mod_pow2_bits_high by lia.
    rewrite <- (Z.mod_small a (2 ^ 64)) by lia.
    rewrite Z.mod_pow2_bits_high by lia. reflexivity.
Qed.

Lemma PutVarint_zigzag x :
  - 2 ^ 63 <= x < 2 ^ 63 -> PutVarint x = PutUvarint (zigzag x).
Proof.
  intros Hx. unfold PutVarint, zigzag. cbv zeta.
  rewrite Z.shiftl_mul_pow2 by lia. change (2 ^ 1) with 2.
  destruct (Z.ltb_spec x 0) as [Hneg | Hpos].
  - assert (Hu : uint64 x = x + 2 ^ 64).
    { unfold uint64. symmetry. apply Z.mod_unique_pos with (q := -1); lia. }
    rewrite Hu.
    assert (Hs : uint64 ((x + 2 ^ 64) * 2) = 2 * x + 2 ^ 64).
    { unfold uint64. symmetry. apply Z.mod_unique_pos with (q := 1); lia. }
    rewrite Hs. rewrite lxor_all_ones by lia. f_equal. lia.
  - rewrite (uint64_small x) by lia. rewrite uint64_small by lia.
    f_equal. lia.
Qed.

Lemma zigzag_range x : - 2 ^ 63 <= x < 2 ^ 63 -> 0 <= zigzag x < 2 ^ 64.
Proof. intros Hx. unfold zigzag. destruct (Z.ltb_spec x 0); lia. Qed.

Lemma unzigzag x :
  - 2 ^ 63 <= x < 2 ^ 63 ->
  (if Z.land (zigzag x) 1 =? 0 then int64 (Z.shiftr (zigzag x) 1)
   else - int64 (Z.shiftr (zigzag x) 1) - 1) = x.
Proof.
  intros Hx. change 1 with (Z.ones 1) at 1. rewrite Z.land_ones by lia.
  rewrite Z.shiftr_div_pow2 by lia. change (2 ^ 1) with 2.
  unfold zigzag. destruct (Z.ltb_spec x 0) as [Hneg | Hpos].
  - replace (- 2 * x - 1) with (1 + (- x - 1) * 2) by lia.
    rewrite Z.mod_add by lia. rewrite Z.div_add by lia.
    change (1 mod 2) with 1. change (1 / 2) with 0. simpl (1 =? 0).
    cbv iota. rewrite int64_small by lia. lia.
  - replace (2 * x) with (0 + x * 2) by lia.
    rewrite Z.mod_add by lia. rewrite Z.div_add by lia.
    change (0 mod 2) with 0. change (0 / 2) with 0. simpl (0 =? 0).
    cbv iota. rewrite int64_small by lia. lia.
Qed.

Lemma Varint_PutVarint n rest :
  - 2 ^ 63 <= n < 2 ^ 63 ->
  Varint (PutVarint n ++ rest) = (n, len (PutVarint n)).
Proof.
  intros Hn. unfold Varint. rewrite PutVarint_zigzag by exact Hn.
  rewrite Uvarint_PutUvarint by (apply zigzag_range; exact Hn).
  f_equal. apply unzigzag. exact Hn.
Qed.

Lemma PutVarint_length_pos x : 0 < len (PutVarint x).
Proof. unfold PutVarint. cbv zeta. apply PutUvarint_length_pos. Qed.

(** C8: for every uint64 [n] the bytes [appendUvarint] appends decode, as an
    unsigned LEB128 varint, to [n]; for every int64 [m] the bytes
    [appendVarint] appends decode, as a zigzag varint, to [m].  The decoders
    also report that they read exactly the appended bytes. *)
Theorem varint_roundtrip (pb : list Z) (n m : Z)
  (Hn : 0 <= n < 2 ^ 64) (Hm : - 2 ^ 63 <= m < 2 ^ 63) :
  Uvarint (drop (length pb) (appendUvarint pb n)) =
    (n, len (appendUvarint pb n) - len pb)
  /\ Varint (drop (length pb) (appendVarint pb m)) =
    (m, len (appendVarint pb m) - len pb).
Proof.
  unfold appendUvarint, appendVarint.
  rewrite !drop_app_length, !len_app.
  pose proof (Uvarint_PutUvarint n [] Hn) as Hu.
  pose proof (Varint_PutVarint m [] Hm) as Hv.
  rewrite app_nil_r in Hu, Hv. rewrite Hu, Hv.
  split; f_equal; lia.
Qed.

Lemma varint_roundtrip_witness :
  Uvarint (drop (length [7]) (appendUvarint [7] (2 ^ 64 - 1))) =
    (2 ^ 64 - 1, len (appendUvarint [7] (2 ^ 64 - 1)) - len [7])
  /\ Varint (drop (length [7]) (appendVarint [7] (- 2 ^ 63))) =
    (- 2 ^ 63, len (appendVarint [7] (- 2 ^ 63)) - len [7]).
Proof.
  apply (varint_roundtrip [7] (2 ^ 64 - 1) (- 2 ^ 63)); lia.
Defined.

(** ** Reading single fields back *)

Lemma to_nat_len {A} (l : list A) : Z.to_nat (len l) = length l.
Proof. unfold len. apply Nat2Z.id. Qed.

Lemma Uvarint_tag t rest : 0 <= t < 128 -> Uvarint (t :: rest) = (t, 1).
Proof.
  intros Ht.
  pose proof (Uvarint_PutUvarint t rest ltac:(lia)) as H.
  rewrite PutUvarint_unfold in H by lia.
  destruct (Z.leb_spec 128 t); [lia |].
  unfold to_byte in H. rewrite Z.mod_small in H by lia. exact H.
Qed.

Lemma parseField_WVarint t v rest :
  0 <= t < 128 -> Z.land t 7 = 0 -> 0 <= v < 2 ^ 64 ->
  parseField (t :: PutUvarint v ++ rest) = Some (Z.shiftr t 3, WVarint v, rest).
Proof.
  intros Ht Hw Hv. unfold parseField.
  rewrite Uvarint_tag by exact Ht. change (Z.to_nat 1) with 1%nat.
  cbn [Z.leb Z.compare skipn]. rewrite ?drop_0. rewrite Hw.
  rewrite Uvarint_PutUvarint by exact Hv.
  pose proof (PutUvarint_length_pos v).
  destruct (Z.leb_spec (len (PutUvarint v)) 0); [lia |].
  rewrite to_nat_len, drop_app_length. reflexivity.
Qed.

Lemma parseField_WBytes t b rest :
  0 <= t < 128 -> Z.land t 7 = 2 -> len b < 2 ^ 64 ->
  parseField (t :: PutUvarint (uint64 (len b)) ++ b ++ rest) =
    Some (Z.shiftr t 3, WBytes b, rest).
Proof.
  intros Ht Hw Hb. unfold parseField.
  rewrite Uvarint_tag by exact Ht. change (Z.to_nat 1) with 1%nat.
  cbn [Z.leb Z.compare skipn]. rewrite ?drop_0. rewrite Hw.
  pose proof (len_nonneg b).
  rewrite uint64_small by lia.
  rewrite Uvarint_PutUvarint by lia.
  pose proof (PutUvarint_length_pos (len b)).
  destruct (Z.leb_spec (len (PutUvarint (len b))) 0); [lia |].
  rewrite to_nat_len, drop_app_length.
  destruct (Z.ltb_spec (len (b ++ rest)) (len b)) as [Hlt |].
  { rewrite len_app in Hlt. pose proof (len_nonneg rest). lia. }
  rewrite to_nat_len, take_app_length, drop_app_length. reflexivity.
Qed.

Lemma parseField_WFixed32 t b rest :
  0 <= t < 128 -> Z.land t 7 = 5 -> length b = 4%nat ->
  parseField (t :: b ++ rest) = Some (Z.shiftr t 3, WFixed32 b, rest).
Proof.
  intros Ht Hw Hb. unfold parseField.
  rewrite Uvarint_tag by exact Ht. change (Z.to_nat 1) with 1%nat.
  cbn [Z.leb Z.compare skipn]. rewrite ?drop_0. rewrite Hw.
  destruct (Z.ltb_spec (len (b ++ rest)) 4) as [Hlt |].
  { rewrite len_app in Hlt. pose proof (len_nonneg rest).
    unfold len in Hlt at 1. lia. }
  rewrite <- Hb, take_app_length, drop_app_length. reflexivity.
Qed.

Lemma parseField_WFixed64 t b rest :
  0 <= t < 128 -> Z.land t 7 = 1 -> length b = 8%nat ->
  parseField (t :: b ++ rest) = Some (Z.shiftr t 3, WFixed64 b, rest).
Proof.
  intros Ht Hw Hb. unfold parseField.
  rewrite Uvarint_tag by exact Ht. change (Z.to_nat 1) with 1%nat.
  cbn [Z.leb Z.compare skipn]. rewrite ?drop_0. rewrite Hw.
  destruct (Z.ltb_spec (len (b ++ rest)) 8) as [Hlt |].
  { rewrite len_app in Hlt. pose proof (len_nonneg rest).
    unfold len in Hlt at 1. lia. }
  rewrite <- Hb, take_app_length, drop_app_length. reflexivity.
Qed.

Lemma parseFields_cons fuel buf number w rest fs :
  parseField buf = Some (number, w, rest) ->
  parseFields fuel rest = Some fs ->
  buf <> [] ->
  parseFields (S fuel) buf = Some ((number, w) :: fs).
Proof.
  intros Hf Hrest Hne. destruct buf as [| b buf]; [congruence |].
  cbn [parseFields]. rewrite Hf, Hrest. reflexivity.
Qed.

Lemma parseMessage_single buf number w :
  parseField buf = Some (number, w, []) ->
  buf <> [] ->
  parseMessage buf = Some [(number, w)].
Proof.
  intros Hf Hne. unfold parseMessage.
  destruct buf as [| b buf]; [congruence |].
  cbn [length].
  apply parseFields_cons with (rest := []); [exact Hf | | discriminate].
  destruct buf; reflexivity.
Qed.

(** ** The Value submessage (encodeValue) *)

(** The equations of the recursive cases of the type switch. *)
Lemma encodeValue_uint8 n : encodeValue (VUint8 n) = encodeValue (VUint64 (uint64 n)).
Proof. reflexivity. Qed.
Lemma encodeValue_uint16 n : encodeValue (VUint16 n) = encodeValue (VUint64 (uint64 n)).
Proof. reflexivity. Qed.
Lemma encodeValue_uint32 n : encodeValue (VUint32 n) = encodeValue (VUint64 (uint64 n)).
Proof. reflexivity. Qed.
Lemma encodeValue_int8 n : encodeValue (VInt8 n) = encodeValue (VInt64 (int64 n)).
Proof. reflexivity. Qed.
Lemma encodeValue_int16 n : encodeValue (VInt16 n) = encodeValue (VInt64 (int64 n)).
Proof. reflexivity. Qed.
Lemma encodeValue_int32 n : encodeValue (VInt32 n) = encodeValue (VInt64 (int64 n)).
Proof. reflexivity. Qed.
Lemma encodeValue_bytes b : encodeValue (VBytes b) = encodeValue (VString b).
Proof. reflexivity. Qed.
Lemma encodeValue_default_int n :
  encodeValue (VInt n) = encodeValue (VString (Sprintf_v_int n)).
Proof. reflexivity. Qed.
Lemma encodeValue_default_uint n :
  encodeValue (VUint n) = encodeValue (VString (Sprintf_v_int n)).
Proof. reflexivity. Qed.
Lemma encodeValue_default text : encodeValue (VOther text) = encodeValue (VString text).
Proof. reflexivity. Qed.

(** Every entry of the values table is field 4 of the layer, holding the
    Value submessage. *)
Lemma encodeValue_parse v :
  len (valueSubmessage v) < 2 ^ 63 ->
  parseMessage (encodeValue v) = Some [(4, WBytes (valueSubmessage v))].
Proof.
  intros Hl. unfold encodeValue, wrapValue, appendUvarint.
  apply parseMessage_single; [| discriminate].
  cbn [app].
  rewrite <- (app_nil_r (valueSubmessage v)) at 2.
  change 4 with (Z.shiftr 34 3).
  apply parseField_WBytes; [lia | reflexivity | lia].
Qed.

(** C1, as the code has it: the Value submessage of a tag value holds one
    field, string_value in field 1 (length-delimited), float_value in
    field 2 (32-bit), double_value in field 3 (64-bit), uint64 values as a
    plain varint in field 5, int64 values as a zigzag varint in field 6 and
    bool values as a 0/1 varint in field 7; it is stored in the values
    table as field 4 of the layer. *)
Theorem value_wire_fields (v : value) (s : list Z) (f32 f64 i u : Z) (b : bool)
  (Hv : len (valueSubmessage v) < 2 ^ 63)
  (Hs : len s < 2 ^ 63)
  (Hi : - 2 ^ 63 <= i < 2 ^ 63)
  (Hu : 0 <= u < 2 ^ 64) :
  parseMessage (encodeValue v) = Some [(4, WBytes (valueSubmessage v))]
  /\ parseMessage (valueSubmessage (VString s)) = Some [(1, WBytes s)]
  /\ parseMessage (valueSubmessage (VFloat32 f32)) = Some [(2, WFixed32 (PutUint32 f32))]
  /\ parseMessage (valueSubmessage (VFloat64 f64)) = Some [(3, WFixed64 (PutUint64 f64))]
  /\ parseMessage (valueSubmessage (VUint64 u)) = Some [(5, WVarint u)]
  /\ parseMessage (valueSubmessage (VInt64 i)) = Some [(6, WVarint (zigzag i))]
  /\ parseMessage (valueSubmessage (VBool b)) =
       Some [(7, WVarint (if b then 1 else 0))].
Proof.
  split; [apply encodeValue_parse; exact Hv |].
  repeat apply conj.
  - apply parseMessage_single; [| discriminate].
    cbn [valueSubmessage]. unfold vpbString, appendString, appendUvarint.
    cbn [app]. rewrite <- (app_nil_r s) at 2.
    change 1 with (Z.shiftr 10 3).
    apply parseField_WBytes; [lia | reflexivity | lia].
  - apply parseMessage_single; [| discriminate].
    cbn [valueSubmessage]. unfold vpbFloat32.
    rewrite <- (app_nil_r (PutUint32 f32)) at 1.
    change 2 with (Z.shiftr 21 3).
    apply parseField_WFixed32; [lia | reflexivity | reflexivity].
  - apply parseMessage_single; [| discriminate].
    cbn [valueSubmessage]. unfold vpbFloat64.
    rewrite <- (app_nil_r (PutUint64 f64)) at 1.
    change 3 with (Z.shiftr 25 3).
    apply parseField_WFixed64; [lia | reflexivity | reflexivity].
  - apply parseMessage_single; [| discriminate].
    cbn [valueSubmessage]. unfold vpbUint64, appendUvarint. cbn [app].
    rewrite <- (app_nil_r (PutUvarint u)).
    change 5 with (Z.shiftr 40 3).
    apply parseField_WVarint; [lia | reflexivity | lia].
  - apply parseMessage_single; [| discriminate].
    cbn [valueSubmessage]. unfold vpbInt64, appendVarint. cbn [app].
    rewrite PutVarint_zigzag by exact Hi.
    rewrite <- (app_nil_r (PutUvarint (zigzag i))).
    change 6 with (Z.shiftr 48 3).
    apply parseField_WVarint; [lia | reflexivity |].
    apply zigzag_range. exact Hi.
  - destruct b; reflexivity.
Qed.

Lemma value_wire_fields_witness :
  parseMessage (encodeValue (VInt64 (-3))) =
    Some [(4, WBytes (valueSubmessage (VInt64 (-3))))]
  /\ parseMessage (valueSubmessage (VString [97; 98])) = Some [(1, WBytes [97; 98])]
  /\ parseMessage (valueSubmessage (VFloat32 1065353216)) =
       Some [(2, WFixed32 (PutUint32 1065353216))]
  /\ parseMessage (valueSubmessage (VFloat64 4607182418800017408)) =
       Some [(3, WFixed64 (PutUint64 4607182418800017408))]
  /\ parseMessage (valueSubmessage (VUint64 5)) = Some [(5, WVarint 5)]
  /\ parseMessage (valueSubmessage (VInt64 (- 2 ^ 63))) =
       Some [(6, WVarint (zigzag (- 2 ^ 63)))]
  /\ parseMessage (valueSubmessage (VBool true)) =
       Some [(7, WVarint (if true then 1 else 0))].
Proof.
  apply (value_wire_fields (VInt64 (-3)) [97; 98] 1065353216
           4607182418800017408 (- 2 ^ 63) 5 true);
    [vm_compute; reflexivity | vm_compute; reflexivity | lia | lia].
Defined.

(** C1 as stated fails: an int64 value is not written to field 4 and a
    bool value is not written to field 6. *)
Lemma value_wire_fields_counterexample :
  parseMessage (valueSubmessage (VInt64 5)) <> Some [(4, WVarint (zigzag 5))]
  /\ parseMessage (valueSubmessage (VBool true)) <> Some [(6, WVarint 1)].
Proof. split; vm_compute; discriminate. Qed.

(** ** The geometry packer *)

Lemma appendCoords_acc cs e : forall gpb lx ly,
  Feature.appendCoords cs e gpb lx ly =
    let '(b, x, y) := Feature.appendCoords cs e [] lx ly in (gpb ++ b, x, y).
Proof.
  induction cs as [| c cs IH]; intros gpb lx ly; cbn [Feature.appendCoords].
  - rewrite app_nil_r. reflexivity.
  - cbv zeta. rewrite IH. symmetry. rewrite IH.
    destruct (Feature.appendCoords cs e [] _ _) as [[b x] y].
    unfold appendVarint. rewrite !app_nil_l, !app_assoc. reflexivity.
Qed.

Lemma appendCommands_acc fuel : forall g e gpb lx ly,
  Feature.appendCommands fuel g e gpb lx ly =
    gpb ++ Feature.appendCommands fuel g e [] lx ly.
Proof.
  induction fuel as [| fuel IH]; intros g e gpb lx ly.
  - destruct g; cbn [Feature.appendCommands]; rewrite app_nil_r; reflexivity.
  - destruct g as [| c rest]; cbn [Feature.appendCommands].
    { rewrite app_nil_r. reflexivity. }
    cbv zeta. unfold appendUvarint. rewrite app_nil_l.
    destruct (command.which c).
    + rewrite appendCoords_acc. symmetry. rewrite appendCoords_acc.
      destruct (Feature.appendCoords _ e [] lx ly) as [[b x] y].
      rewrite IH. symmetry. rewrite IH. rewrite !app_assoc. reflexivity.
    + rewrite appendCoords_acc. symmetry. rewrite appendCoords_acc.
      destruct (Feature.appendCoords _ e [] lx ly) as [[b x] y].
      rewrite IH. symmetry. rewrite IH. rewrite !app_assoc. reflexivity.
    + rewrite IH. symmetry. rewrite IH. rewrite !app_assoc. reflexivity.
Qed.

(** The stream of the loop starts with the command integer of the first
    run. *)
Lemma appendCommands_head fuel c rest e lx ly :
  exists tail,
    Feature.appendCommands (S fuel) (c :: rest) e [] lx ly =
      PutUvarint (uint64 (commandInteger (which_id (command.which c))
                            (1 + Feature.countRun (command.which c) rest)))
      ++ tail.
Proof.
  cbn [Feature.appendCommands]. cbv zeta. unfold appendUvarint.
  rewrite app_nil_l.
  destruct (command.which c).
  - destruct (Feature.appendCoords _ e _ lx ly) as [[b x] y] eqn:Hc.
    rewrite appendCoords_acc in Hc.
    destruct (Feature.appendCoords _ e [] lx ly) as [[b' x'] y'].
    injection Hc as <- <- <-.
    rewrite appendCommands_acc, <- app_assoc. eexists. reflexivity.
  - destruct (Feature.appendCoords _ e _ lx ly) as [[b x] y] eqn:Hc.
    rewrite appendCoords_acc in Hc.
    destruct (Feature.appendCoords _ e [] lx ly) as [[b' x'] y'].
    injection Hc as <- <- <-.
    rewrite appendCommands_acc, <- app_assoc. eexists. reflexivity.
  - rewrite appendCommands_acc. eexists. reflexivity.
Qed.

(** C5: when the geometry is not empty and its first operation is not a
    MoveTo, the packed stream is the command integer of MoveTo with count 1
    (the byte 9) and the zigzag varints of the deltas 0 and 0, followed by
    the stream of the operations themselves, which starts with the command
    integer of the first operation's run; a reader of the stream gets the
    command MoveTo, count 1, pair (0, 0) first.  When the first operation is
    a MoveTo the stream is that of the operations alone. *)
Theorem implicit_moveTo (c : command.t) (rest : list command.t) (e : float) :
  let g := c :: rest in
  let ops := Feature.appendCommands (length g) g e [] 0 0 in
  (command.which c <> moveTo ->
     Feature.appendGeometry g e =
       PutUvarint (commandInteger (which_id moveTo) 1)
         ++ PutVarint 0 ++ PutVarint 0 ++ ops
     /\ readCommand (Feature.appendGeometry g e) = Some (mkG 1 1 [(0, 0)], ops))
  /\ (command.which c = moveTo -> Feature.appendGeometry g e = ops)
  /\ exists tail,
       ops = PutUvarint (uint64 (commandInteger (which_id (command.which c))
                                   (1 + Feature.countRun (command.which c) rest)))
             ++ tail.
Proof.
  intros g ops. repeat apply conj.
  - intros Hne. subst ops g. unfold Feature.appendGeometry.
    cbv beta iota zeta.
    assert (Hw : which_eqb (command.which c) moveTo = false)
      by (destruct (command.which c); [congruence | reflexivity | reflexivity]).
    rewrite Hw. rewrite appendCommands_acc.
    split; reflexivity.
  - intros Heq. subst ops g. unfold Feature.appendGeometry.
    cbv beta iota zeta. rewrite Heq. reflexivity.
  - subst ops g. cbn [length]. apply appendCommands_head.
Qed.

(** C2 at a geometry with two ClosePath in a row: the two maximal runs
    (one MoveTo, two ClosePath) are written as three command integers,
    ClosePath with count 2 and then ClosePath with count 1. *)
Theorem closePath_run_commands :
  let g := [command.mk moveTo 0 0; command.mk closePath 0 0;
            command.mk closePath 0 0] in
  runs g = [(moveTo, 1); (closePath, 2)]
  /\ Feature.appendGeometry g 4096 = [9; 0; 0; 23; 15]
  /\ readGeometry (Feature.appendGeometry g 4096) =
       Some [mkG 1 1 [(0, 0)]; mkG 7 2 []; mkG 7 1 []].
Proof. repeat apply conj; vm_compute; reflexivity. Qed.

(** C3 at a Go [int]: the value 5 of type [int] is written as the string
    "5", not as the int64 5. *)
Theorem int_tag_is_text :
  encodeValue (VInt 5) = encodeValue (VString [53])
  /\ encodeValue (VInt 5) = [34; 3; 10; 1; 53]
  /\ encodeValue (VInt64 5) = [34; 2; 48; 10]
  /\ encodeValue (VInt 5) <> encodeValue (VInt64 5).
Proof. repeat apply conj; vm_compute; try reflexivity; discriminate. Qed.

(** The sized integer types are widened: a value of an 8-, 16- or 32-bit
    integer type is written as the 64-bit value of the same number. *)
Lemma sized_integers_widen n :
  (value_wf (VUint8 n) -> encodeValue (VUint8 n) = encodeValue (VUint64 n))
  /\ (value_wf (VUint16 n) -> encodeValue (VUint16 n) = encodeValue (VUint64 n))
  /\ (value_wf (VUint32 n) -> encodeValue (VUint32 n) = encodeValue (VUint64 n))
  /\ (value_wf (VInt8 n) -> encodeValue (VInt8 n) = encodeValue (VInt64 n))
  /\ (value_wf (VInt16 n) -> encodeValue (VInt16 n) = encodeValue (VInt64 n))
  /\ (value_wf (VInt32 n) -> encodeValue (VInt32 n) = encodeValue (VInt64 n)).
Proof.
  cbn [value_wf]. repeat apply conj; intros Hn.
  - rewrite encodeValue_uint8, uint64_small by lia. reflexivity.
  - rewrite encodeValue_uint16, uint64_small by lia. reflexivity.
  - rewrite encodeValue_uint32, uint64_small by lia. reflexivity.
  - rewrite encodeValue_int8, int64_small by lia. reflexivity.
  - rewrite encodeValue_int16, int64_small by lia. reflexivity.
  - rewrite encodeValue_int32, int64_small by lia. reflexivity.
Qed.

Lemma implicit_moveTo_witness :
  Feature.appendGeometry [command.mk lineTo 1 1] 4096 =
    PutUvarint (commandInteger (which_id moveTo) 1) ++ PutVarint 0 ++ PutVarint 0
      ++ Feature.appendCommands 1 [command.mk lineTo 1 1] 4096 [] 0 0
  /\ readCommand (Feature.appendGeometry [command.mk lineTo 1 1] 4096) =
       Some (mkG 1 1 [(0, 0)],
             Feature.appendCommands 1 [command.mk lineTo 1 1] 4096 [] 0 0).
Proof.
  apply (proj1 (implicit_moveTo (command.mk lineTo 1 1) [] 4096)).
  simpl. discriminate.
Defined.

Example implicit_moveTo_LineTo_1_1 :
  Feature.appendGeometry [command.mk lineTo 1 1] 4096 = [9; 0; 0; 10; 32; 32].
Proof. vm_compute. reflexivity. Qed.

(** ** TileBounds *)

Lemma pixelXYToLatLon_some Atan Exp px py lod :
  0 <= lod ->
  exists lat lon, pixelXYToLatLon Atan Exp px py lod = Some (lat, lon).
Proof.
  intros Hl. unfold pixelXYToLatLon, gMapSize.
  destruct (Z.ltb_spec lod 0); [lia |]. eexists. eexists. reflexivity.
Qed.

(** C9: for a zoom from 0 to 31 and a tile inside the grid, [TileBounds]
    returns, and its result has minLon -180 in the first column, maxLon 180
    in the last column, maxLat 85.05112878 in the first row and minLat
    -85.05112878 in the last row; [TileBounds(0, 0, 0)] is exactly
    (-85.05112878, -180, 85.05112878, 180). *)
Theorem TileBounds_edges (Atan Exp : float -> float) (tileX tileY tileZ : Z)
  (Hz : 0 <= tileZ <= 31)
  (Hx : 0 <= tileX < 2 ^ tileZ)
  (Hy : 0 <= tileY < 2 ^ tileZ) :
  (exists b,
     TileBounds Atan Exp tileX tileY tileZ = Some b
     /\ (tileX = 0 -> minLon b = (-180)%float)
     /\ (tileX = 2 ^ tileZ - 1 -> maxLon b = 180%float)
     /\ (tileY = 0 -> maxLat b = 85.05112878%float)
     /\ (tileY = 2 ^ tileZ - 1 -> minLat b = (-85.05112878)%float))
  /\ TileBounds Atan Exp 0 0 0 =
       Some (mkBounds (-85.05112878) (-180) 85.05112878 180).
Proof.
  split; [| vm_compute; reflexivity].
  assert (Hsz : 1 <= 2 ^ tileZ <= 2 ^ 31).
  { split; [apply (Z.pow_le_mono_r 2 0 tileZ); lia |].
    apply Z.pow_le_mono_r; lia. }
  unfold TileBounds.
  destruct (Z.ltb_spec tileZ 0); [lia |].
  rewrite Z.shiftl_mul_pow2 by lia. rewrite Z.mul_1_l.
  rewrite (int64_small (2 ^ tileZ)) by lia.
  rewrite (int64_small (2 ^ tileZ - 1)) by lia.
  unfold tileXYToPixelXY.
  destruct (pixelXYToLatLon_some Atan Exp (int64 (Z.shiftl tileX 8))
              (int64 (Z.shiftl tileY 8)) tileZ ltac:(lia)) as (lat0 & lon0 & ->).
  destruct (pixelXYToLatLon_some Atan Exp
              (int64 (Z.shiftl (int64 (tileX + 1)) 8))
              (int64 (Z.shiftl (int64 (tileY + 1)) 8)) tileZ ltac:(lia))
    as (lat1 & lon1 & ->).
  eexists. split; [reflexivity |]. cbn [minLat minLon maxLat maxLon].
  repeat apply conj.
  - intros ->. rewrite Z.rem_0_l by lia.
    rewrite orb_true_r. reflexivity.
  - intros ->. rewrite Z.rem_small by lia. rewrite Z.eqb_refl.
    rewrite orb_true_r. reflexivity.
  - intros ->. reflexivity.
  - intros ->. rewrite Z.leb_refl. reflexivity.
Qed.

Lemma TileBounds_edges_witness :
  (exists b,
     TileBounds (fun f => f) (fun f => f) 3 0 2 = Some b
     /\ (3 = 0 -> minLon b = (-180)%float)
     /\ (3 = 2 ^ 2 - 1 -> maxLon b = 180%float)
     /\ (0 = 0 -> maxLat b = 85.05112878%float)
     /\ (0 = 2 ^ 2 - 1 -> minLat b = (-85.05112878)%float))
  /\ TileBounds (fun f => f) (fun f => f) 0 0 0 =
       Some (mkBounds (-85.05112878) (-180) 85.05112878 180).
Proof.
  apply (TileBounds_edges (fun f => f) (fun f => f) 3 0 2); lia.
Defined.

(** ** First-seen tables *)

Section FirstSeen.
Context {A : Type} `{EqDecision A}.
Implicit Types (a b : A) (l k : list A).

Lemma firstSeen_snoc l a : firstSeen (l ++ [a]) = addNew (firstSeen l) a.
Proof. unfold firstSeen. rewrite fold_left_app. reflexivity. Qed.

Lemma addNew_elem acc a x : x ∈ addNew acc a <-> x ∈ acc \/ x = a.
Proof.
  unfold addNew. destruct (decide (a ∈ acc)) as [Hin | Hout].
  - split; [auto | intros [H | ->]; assumption].
  - rewrite elem_of_app, list_elem_of_singleton. reflexivity.
Qed.

Lemma addNew_NoDup acc a : NoDup acc -> NoDup (addNew acc a).
Proof.
  intros Hnd. unfold addNew. destruct (decide (a ∈ acc)) as [Hin | Hout].
  - exact Hnd.
  - apply NoDup_app. split; [exact Hnd |]. split.
    + intros x Hx Hxa. apply list_elem_of_singleton in Hxa. subst. auto.
    + apply NoDup_singleton.
Qed.

Lemma firstSeen_elem l x : x ∈ firstSeen l <-> x ∈ l.
Proof.
  induction l as [| a l IH] using rev_ind.
  - reflexivity.
  - rewrite firstSeen_snoc, addNew_elem, IH, elem_of_app,
      list_elem_of_singleton. reflexivity.
Qed.

Lemma firstSeen_NoDup l : NoDup (firstSeen l).
Proof.
  induction l as [| a l IH] using rev_ind.
  - apply NoDup_nil_2.
  - rewrite firstSeen_snoc. apply addNew_NoDup. exact IH.
Qed.

Lemma position_range a l : 0 <= position a l <= len l.
Proof.
  induction l as [| b l IH]; cbn [position].
  - unfold len. simpl. lia.
  - unfold len in *. cbn [length]. destruct (decide (a = b)); lia.
Qed.

Lemma position_lookup a l :
  a ∈ l -> l !! Z.to_nat (position a l) = Some a.
Proof.
  induction l as [| b l IH]; intros Hin.
  - apply elem_of_nil in Hin. contradiction.
  - cbn [position]. destruct (decide (a = b)) as [-> | Hne].
    + reflexivity.
    + apply elem_of_cons in Hin. destruct Hin as [? | Hin]; [contradiction |].
      pose proof (position_range a l).
      replace (Z.to_nat (1 + position a l)) with (S (Z.to_nat (position a l)))
        by lia.
      cbn. apply IH. exact Hin.
Qed.

Lemma position_app_in a l k : a ∈ l -> position a (l ++ k) = position a l.
Proof.
  induction l as [| b l IH]; intros Hin.
  - apply elem_of_nil in Hin. contradiction.
  - cbn [app position]. destruct (decide (a = b)) as [| Hne]; [reflexivity |].
    apply elem_of_cons in Hin. destruct Hin as [? | Hin]; [contradiction |].
    rewrite IH by exact Hin. reflexivity.
Qed.

Lemma position_app_new a l : a ∉ l -> position a (l ++ [a]) = len l.
Proof.
  induction l as [| b l IH]; intros Hout.
  - cbn [app position]. destruct (decide (a = a)); [reflexivity | contradiction].
  - cbn [app position]. rewrite not_elem_of_cons in Hout.
    destruct Hout as [Hne Hout].
    destruct (decide (a = b)); [contradiction |].
    rewrite IH by exact Hout. unfold len. cbn [length]. lia.
Qed.

Lemma position_inj a b l :
  a ∈ l -> b ∈ l -> position a l = position b l -> a = b.
Proof.
  intros Ha Hb Heq.
  pose proof (position_lookup a l Ha) as H1.
  pose proof (position_lookup b l Hb) as H2.
  rewrite Heq in H1. congruence.
Qed.
End FirstSeen.

(** ** collectTags *)

Lemma table_hit arr idx m a i :
  tableInv arr idx m -> m !! a = Some i -> a ∈ arr /\ i = position a arr.
Proof.
  intros [_ Hm] Hl. rewrite Hm in Hl.
  destruct (decide (a ∈ arr)); [| discriminate].
  split; [assumption | congruence].
Qed.

Lemma table_miss arr idx m a :
  tableInv arr idx m -> m !! a = None ->
  (a ∉ arr) /\ tableInv (arr ++ [a]) (idx + 1) (<[a := idx]> m).
Proof.
  intros [Hi Hm] Hl. rewrite Hm in Hl.
  destruct (decide (a ∈ arr)) as [| Hout]; [discriminate |].
  split; [assumption |]. split.
  - rewrite len_app, Hi. reflexivity.
  - intros b. rewrite lookup_insert.
    destruct (decide (a = b)) as [<- | Hne].
    + rewrite decide_True by (apply elem_of_app; right; apply list_elem_of_singleton; reflexivity).
      rewrite position_app_new by assumption. rewrite Hi. reflexivity.
    + rewrite Hm. destruct (decide (b ∈ arr)) as [Hin | Hnin].
      * rewrite decide_True by (apply elem_of_app; left; assumption).
        rewrite position_app_in by assumption. reflexivity.
      * rewrite decide_False; [reflexivity |].
        rewrite elem_of_app, list_elem_of_singleton. intros [? | ?]; [auto | congruence].
Qed.

Lemma tagPairs_stable ts keysa valsa k1 k2 :
  (forall tg, tg ∈ ts -> encKey tg ∈ keysa /\ encVal tg ∈ valsa) ->
  concat (map (tagPair (keysa ++ k1) (valsa ++ k2)) ts) =
    concat (map (tagPair keysa valsa) ts).
Proof.
  induction ts as [| tg ts IH]; intros Hin; [reflexivity |].
  cbn [map concat]. rewrite IH.
  - f_equal. unfold tagPair.
    destruct (Hin tg ltac:(apply elem_of_cons; left; reflexivity)) as [Hk Hv].
    unfold encKey, encVal in Hk, Hv.
    rewrite !position_app_in by assumption. reflexivity.
  - intros t' Ht'. apply Hin. apply elem_of_cons. right. exact Ht'.
Qed.

Lemma collectInv_members ts st tg :
  collectInv ts st -> tg ∈ ts ->
  encKey tg ∈ Layer.keysa st /\ encVal tg ∈ Layer.valsa st.
Proof.
  intros (Hk & Hv & _) Hin. rewrite Hk, Hv, !firstSeen_elem.
  split; apply list_elem_of_fmap; exists tg; auto.
Qed.

Lemma collectInv_init : collectInv [] Layer.noTables.
Proof.
  unfold collectInv, tableInv. cbn. repeat apply conj; reflexivity.
Qed.

Lemma collectInv_step ts st tg :
  collectInv ts st -> collectInv (ts ++ [tg]) (Layer.collectTag st tg).
Proof.
  intros Hinv.
  pose proof (collectInv_members ts st) as Hmem. specialize (Hmem).
  destruct Hinv as (Hk & Hv & Tk & Tv & Ht).
  assert (Hmem' : forall t', t' ∈ ts ->
            encKey t' ∈ Layer.keysa st /\ encVal t' ∈ Layer.valsa st).
  { intros t' Ht'. apply Hmem; [| exact Ht'].
    exact (conj Hk (conj Hv (conj Tk (conj Tv Ht)))). }
  clear Hmem.
  unfold Layer.collectTag. fold (encKey tg). fold (encVal tg). cbv zeta.
  destruct (Layer.keys st !! encKey tg) as [ik |] eqn:Ek;
    cbn [Layer.keysa Layer.valsa Layer.tagidxs Layer.keyidx Layer.validx
         Layer.keys Layer.vals];
    [destruct (table_hit _ _ _ _ _ Tk Ek) as [Hkin ->]
    | destruct (table_miss _ _ _ _ Tk Ek) as [Hkout Tk']];
    (destruct (Layer.vals st !! encVal tg) as [iv |] eqn:Ev;
     cbn [Layer.keysa Layer.valsa Layer.tagidxs Layer.keyidx Layer.validx
          Layer.keys Layer.vals];
     [destruct (table_hit _ _ _ _ _ Tv Ev) as [Hvin ->]
     | destruct (table_miss _ _ _ _ Tv Ev) as [Hvout Tv']]);
    unfold collectInv;
    cbn [Layer.keysa Layer.valsa Layer.tagidxs Layer.keyidx Layer.validx
         Layer.keys Layer.vals];
    rewrite !map_app; cbn [map];
    rewrite !firstSeen_snoc, <- Hk, <- Hv, concat_app;
    cbn [concat]; rewrite app_nil_r;
    unfold addNew;
    rewrite ?(decide_True _ _ Hkin), ?(decide_False _ _ Hkout),
            ?(decide_True _ _ Hvin), ?(decide_False _ _ Hvout);
    (split; [| split; [| split; [| split]]]; try reflexivity; try assumption).
  - rewrite Ht, <- app_assoc. reflexivity.
  - pose proof (tagPairs_stable ts _ _ [] [encVal tg] Hmem') as Hst.
    rewrite app_nil_r in Hst. rewrite Hst.
    rewrite Ht, <- app_assoc. f_equal. unfold tagPair. cbn [app].
    fold (encKey tg). fold (encVal tg).
    rewrite position_app_new by exact Hvout.
    destruct Tv as [-> _]. reflexivity.
  - pose proof (tagPairs_stable ts _ _ [encKey tg] [] Hmem') as Hst.
    rewrite app_nil_r in Hst. rewrite Hst.
    rewrite Ht, <- app_assoc. f_equal. unfold tagPair. cbn [app].
    fold (encKey tg). fold (encVal tg).
    rewrite position_app_new by exact Hkout.
    destruct Tk as [-> _]. reflexivity.
  - rewrite tagPairs_stable by exact Hmem'.
    rewrite Ht, <- app_assoc. f_equal. unfold tagPair. cbn [app].
    fold (encKey tg). fold (encVal tg).
    rewrite position_app_new by exact Hkout.
    rewrite position_app_new by exact Hvout.
    destruct Tk as [-> _]. destruct Tv as [-> _]. reflexivity.
Qed.

Lemma collectInv_tags tags : forall ts st,
  collectInv ts st -> collectInv (ts ++ tags) (fold_left Layer.collectTag tags st).
Proof.
  induction tags as [| tg tags IH]; intros ts st Hinv; cbn [fold_left].
  - rewrite app_nil_r. exact Hinv.
  - replace (ts ++ tg :: tags) with ((ts ++ [tg]) ++ tags)
      by (rewrite <- app_assoc; reflexivity).
    apply IH. apply collectInv_step. exact Hinv.
Qed.

Lemma collectInv_features fs : forall ts st,
  collectInv ts st ->
  collectInv (ts ++ concat (map Feature.tags fs))
             (fold_left Layer.collectFeature fs st).
Proof.
  induction fs as [| f fs IH]; intros ts st Hinv; cbn [fold_left map concat].
  - rewrite app_nil_r. exact Hinv.
  - rewrite app_assoc. apply IH. unfold Layer.collectFeature.
    apply collectInv_tags. exact Hinv.
Qed.

Lemma collectTags_inv l :
  collectInv (allTags l) (fold_left Layer.collectFeature (Layer.features l) Layer.noTables).
Proof.
  unfold allTags.
  apply (collectInv_features (Layer.features l) [] Layer.noTables collectInv_init).
Qed.

(** C4: after the tag-collection pass the key table is the encoded keys of
    the layer's tags in first-seen order, each once, and likewise the value
    table; the index stream holds, for every tag in feature order then tag
    order, the position of its encoded key in the key table followed by the
    position of its encoded value in the value table; two tags get the same
    index exactly when their encodings are the same bytes (uint64 5 and
    int64 5 are not); two features with the tag ("a", uint64 1) give one
    key, one value and the stream [0; 0; 0; 0]. *)
Theorem collectTags_dedup (l : Layer.t) :
  let ks := map encKey (allTags l) in
  let vs := map encVal (allTags l) in
  let '(keysa, valsa, tagidxs) := Layer.collectTags l in
  (keysa = firstSeen ks /\ NoDup keysa /\ forall k, k ∈ keysa <-> k ∈ ks)
  /\ (valsa = firstSeen vs /\ NoDup valsa /\ forall v, v ∈ valsa <-> v ∈ vs)
  /\ tagidxs = concat (map (tagPair keysa valsa) (allTags l))
  /\ (forall tg, tg ∈ allTags l ->
        keysa !! Z.to_nat (position (encKey tg) keysa) = Some (encKey tg)
        /\ valsa !! Z.to_nat (position (encVal tg) valsa) = Some (encVal tg))
  /\ (forall t1 t2, t1 ∈ allTags l -> t2 ∈ allTags l ->
        (position (encKey t1) keysa = position (encKey t2) keysa
           <-> encKey t1 = encKey t2)
        /\ (position (encVal t1) valsa = position (encVal t2) valsa
           <-> encVal t1 = encVal t2))
  /\ encodeValue (VUint64 5) <> encodeValue (VInt64 5)
  /\ (let f := Feature.mk Point 0 false [mkTag [97] (VUint64 1)] [] in
      Layer.collectTags (Layer.mk [116] [f; f] 0 false 0 0 0 None) =
        ([encodeKey [97]], [encodeValue (VUint64 1)], [0; 0; 0; 0])).
Proof.
  intros ks vs. unfold Layer.collectTags. cbv zeta.
  pose proof (collectTags_inv l) as Hinv.
  set (st := fold_left Layer.collectFeature (Layer.features l) Layer.noTables) in *.
  pose proof (collectInv_members (allTags l) st) as Hmem.
  destruct Hinv as (Hk & Hv & Tk & Tv & Ht).
  assert (Hmem' : forall tg, tg ∈ allTags l ->
            encKey tg ∈ Layer.keysa st /\ encVal tg ∈ Layer.valsa st).
  { intros tg Hin. apply Hmem; [| exact Hin].
    exact (conj Hk (conj Hv (conj Tk (conj Tv Ht)))). }
  clear Hmem.
  split; [| split; [| split; [| split; [| split; [| split]]]]].
  - split; [exact Hk |]. split.
    + rewrite Hk. apply firstSeen_NoDup.
    + intros k. rewrite Hk. apply firstSeen_elem.
  - split; [exact Hv |]. split.
    + rewrite Hv. apply firstSeen_NoDup.
    + intros v. rewrite Hv. apply firstSeen_elem.
  - exact Ht.
  - intros tg Hin. destruct (Hmem' tg Hin) as [Hkin Hvin].
    split; apply position_lookup; assumption.
  - intros t1 t2 H1 H2.
    destruct (Hmem' t1 H1) as [Hk1 Hv1]. destruct (Hmem' t2 H2) as [Hk2 Hv2].
    split; split.
    + apply position_inj; assumption.
    + intros ->. reflexivity.
    + apply position_inj; assumption.
    + intros ->. reflexivity.
  - vm_compute. discriminate.
  - vm_compute. reflexivity.
Qed.

(** ** Rendering never indexes past the tag-index stream *)

Lemma appendTags_ok ts : forall pb idxs,
  (2 * length ts <= length idxs)%nat ->
  exists pb',
    Feature.appendTags ts pb idxs = Some (pb', drop (2 * length ts) idxs).
Proof.
  induction ts as [| tg ts IH]; intros pb idxs Hlen; cbn [Feature.appendTags].
  - exists pb. reflexivity.
  - cbn [length] in Hlen.
    destruct idxs as [| k [| v rest]]; cbn [length] in Hlen; try lia.
    destruct (IH (appendUvarint (appendUvarint pb (uint64 k)) (uint64 v)) rest
                ltac:(lia)) as [pb' Hpb'].
    exists pb'. rewrite Hpb'. f_equal. f_equal.
    cbn [length]. replace (2 * S (length ts))%nat with (S (S (2 * length ts))) by lia.
    reflexivity.
Qed.

Lemma Feature_body_ok f idxs e :
  (2 * length (Feature.tags f) <= length idxs)%nat ->
  exists pb,
    Feature.body f idxs e = Some (pb, drop (2 * length (Feature.tags f)) idxs).
Proof.
  intros Hlen. unfold Feature.body. cbv zeta.
  destruct (Z.ltb_spec 0 (len (Feature.tags f))) as [Hpos | Hzero].
  - destruct (appendTags_ok (Feature.tags f)
                (appendUvarint
                   ((if Feature.hasID f
                     then appendUvarint ([] ++ [8]) (Feature.id f) else []) ++ [18])
                   (uint64 (len (Feature.tags f) * 2))) idxs Hlen) as [pb' ->].
    eexists. reflexivity.
  - assert (Hnil : length (Feature.tags f) = 0%nat) by (unfold len in Hzero; lia).
    rewrite Hnil. cbn [Nat.mul drop]. eexists. reflexivity.
Qed.

Lemma Feature_append_ok f vpb idxs e :
  (2 * length (Feature.tags f) <= length idxs)%nat ->
  exists pb,
    Feature.append f vpb idxs e = Some (pb, drop (2 * length (Feature.tags f)) idxs).
Proof.
  intros Hlen. unfold Feature.append.
  destruct (Feature_body_ok f idxs e Hlen) as [pb ->]. eexists. reflexivity.
Qed.

Lemma appendFeatures_ok fs : forall pb idxs e,
  (2 * length (concat (map Feature.tags fs)) <= length idxs)%nat ->
  exists pb',
    Layer.appendFeatures fs pb idxs e =
      Some (pb', drop (2 * length (concat (map Feature.tags fs))) idxs).
Proof.
  induction fs as [| f fs IH]; intros pb idxs e Hlen;
    cbn [Layer.appendFeatures map concat] in *.
  - exists pb. reflexivity.
  - rewrite length_app in Hlen.
    destruct (Feature_append_ok f pb idxs e ltac:(lia)) as [pb1 ->].
    destruct (IH pb1 (drop (2 * length (Feature.tags f)) idxs) e) as [pb2 ->].
    { rewrite length_drop. lia. }
    exists pb2. f_equal. f_equal. rewrite drop_drop. f_equal.
    rewrite length_app. lia.
Qed.

Lemma tagPairs_length keysa valsa ts :
  length (concat (map (tagPair keysa valsa) ts)) = (2 * length ts)%nat.
Proof.
  induction ts as [| tg ts IH]; [reflexivity |].
  cbn [map concat length]. rewrite length_app, IH. cbn [tagPair length]. lia.
Qed.





Lemma PutVarint_length n : len (PutVarint n) <= 10.
Proof.
  unfold PutVarint. cbv zeta. apply PutUvarint_length.
  pose proof (uint64_range (Z.shiftl (uint64 n) 1)) as Hr.
  destruct (n <? 0); [| exact Hr].
  rewrite lxor_all_ones by exact Hr. lia.
Qed.


(** [NewTile] returns for every zoom that is not negative; a negative zoom
    is a shift by a negative count. *)
Lemma NewTile_total Atan Exp tileX tileY tileZ :
  (0 <= tileZ -> exists tl, NewTile Atan Exp tileX tileY tileZ = Some tl
                            /\ Tile.layers tl = [])
  /\ (tileZ < 0 -> NewTile Atan Exp tileX tileY tileZ = None).
Proof.
  unfold NewTile, TileBounds. split; intros Hz.
  - destruct (Z.ltb_spec tileZ 0); [lia |].
    unfold tileXYToPixelXY.
    destruct (pixelXYToLatLon_some Atan Exp (int64 (Z.shiftl tileX 8))
                (int64 (Z.shiftl tileY 8)) tileZ Hz) as (lat0 & lon0 & ->).
    destruct (pixelXYToLatLon_some Atan Exp
                (int64 (Z.shiftl (int64 (tileX + 1)) 8))
                (int64 (Z.shiftl (int64 (tileY + 1)) 8)) tileZ Hz)
      as (lat1 & lon1 & ->).
    eexists. split; reflexivity.
  - destruct (Z.ltb_spec tileZ 0); [reflexivity | lia].
Qed.

(** ** Parsing a rendered layer *)

Lemma parseFields_more fuel : forall fuel' buf fs,
  parseFields fuel buf = Some fs -> (fuel <= fuel')%nat ->
  parseFields fuel' buf = Some fs.
Proof.
  induction fuel as [| fuel IH]; intros fuel' buf fs Hp Hle.
  - destruct buf; [| discriminate]. destruct fuel'; exact Hp.
  - destruct buf as [| b buf]; [destruct fuel'; exact Hp |].
    destruct fuel' as [| fuel']; [lia |].
    cbn [parseFields] in *.
    destruct (parseField (b :: buf)) as [[[n w] rest] |]; [| discriminate].
    destruct (parseFields fuel rest) as [fs' |] eqn:Hrest; [| discriminate].
    rewrite (IH fuel' rest fs' Hrest ltac:(lia)). exact Hp.
Qed.

Lemma parsesTo_message buf fs : parsesTo buf fs -> parseMessage buf = Some fs.
Proof.
  intros (fuel & Hle & Hp). unfold parseMessage.
  apply (parseFields_more fuel); assumption.
Qed.

Lemma parsesTo_nil : parsesTo [] [].
Proof. exists 0%nat. split; [simpl; lia | reflexivity]. Qed.

Lemma parsesTo_cons x rest number w rs :
  parseField (x ++ rest) = Some (number, w, rest) -> x <> [] ->
  parsesTo rest rs -> parsesTo (x ++ rest) ((number, w) :: rs).
Proof.
  intros Hf Hne (fuel & Hle & Hp). exists (S fuel). split.
  - rewrite length_app. destruct x; [congruence |]. cbn [length]. lia.
  - apply parseFields_cons with (rest := rest); [exact Hf | exact Hp |].
    destruct x; [congruence | discriminate].
Qed.

Lemma parsesTo_frame t payload rest rs :
  0 <= t < 128 -> Z.land t 7 = 2 -> len payload < 2 ^ 64 ->
  parsesTo rest rs ->
  parsesTo (frame t payload ++ rest) ((Z.shiftr t 3, WBytes payload) :: rs).
Proof.
  intros Ht Hw Hl Hrest. apply parsesTo_cons; [| discriminate | exact Hrest].
  unfold frame. cbn [app]. rewrite <- app_assoc.
  apply parseField_WBytes; assumption.
Qed.

Lemma parsesTo_frames t payloads : forall rest rs,
  0 <= t < 128 -> Z.land t 7 = 2 ->
  (forall p, p ∈ payloads -> len p < 2 ^ 64) ->
  parsesTo rest rs ->
  parsesTo (concat (map (frame t) payloads) ++ rest)
           (map (fun p => (Z.shiftr t 3, WBytes p)) payloads ++ rs).
Proof.
  induction payloads as [| p ps IH]; intros rest rs Ht Hw Hl Hrest.
  - exact Hrest.
  - cbn [map concat app]. rewrite <- app_assoc.
    apply parsesTo_frame; [exact Ht | exact Hw | |].
    + apply Hl. apply elem_of_cons. left. reflexivity.
    + apply IH; [exact Ht | exact Hw | | exact Hrest].
      intros q Hq. apply Hl. apply elem_of_cons. right. exact Hq.
Qed.

Lemma parsesTo_varint t v rest rs :
  0 <= t < 128 -> Z.land t 7 = 0 -> 0 <= v < 2 ^ 64 ->
  parsesTo rest rs ->
  parsesTo ((t :: PutUvarint v) ++ rest) ((Z.shiftr t 3, WVarint v) :: rs).
Proof.
  intros Ht Hw Hv Hrest. apply parsesTo_cons; [| discriminate | exact Hrest].
  cbn [app]. apply parseField_WVarint; assumption.
Qed.

(** The shapes of what the encoder appends. *)
Lemma encodeKey_frame k : encodeKey k = frame 26 k.
Proof. reflexivity. Qed.

Lemma encodeValue_frame v : encodeValue v = frame 34 (valueSubmessage v).
Proof. reflexivity. Qed.

Lemma Feature_append_frame f vpb idxs e pb idxs' :
  Feature.append f vpb idxs e = Some (pb, idxs') ->
  exists body, Feature.body f idxs e = Some (body, idxs')
               /\ pb = vpb ++ frame 18 body.
Proof.
  unfold Feature.append.
  destruct (Feature.body f idxs e) as [[body ix] |]; [| discriminate].
  intros H. injection H as <- <-. exists body. split; [reflexivity |].
  unfold frame, appendUvarint. rewrite <- !app_assoc. reflexivity.
Qed.





Lemma len_frame t p : len p <= len (frame t p).
Proof.
  unfold frame, len. cbn [length]. rewrite length_app. lia.
Qed.

Lemma len_concat_elem (x : list Z) xs : x ∈ xs -> len x <= len (concat xs).
Proof.
  induction xs as [| y xs IH]; intros Hin.
  - apply elem_of_nil in Hin. contradiction.
  - cbn [concat]. rewrite len_app. apply elem_of_cons in Hin.
    destruct Hin as [-> | Hin].
    + pose proof (len_nonneg (concat xs)). lia.
    + pose proof (len_nonneg y). specialize (IH Hin). lia.
Qed.

Lemma len_frames_elem t p ps :
  p ∈ ps -> len p <= len (concat (map (frame t) ps)).
Proof.
  intros Hin. pose proof (len_frame t p).
  assert (frame t p ∈ map (frame t) ps)
    by (apply list_elem_of_fmap; exists p; auto).
  pose proof (len_concat_elem _ _ H0). lia.
Qed.




(** ** Reading the geometry stream back *)

Lemma decodeGeometry_more fuel : forall fuel' buf cmds,
  decodeGeometry fuel buf = Some cmds -> (fuel <= fuel')%nat ->
  decodeGeometry fuel' buf = Some cmds.
Proof.
  induction fuel as [| fuel IH]; intros fuel' buf cmds Hd Hle.
  - destruct buf; [| discriminate]. destruct fuel'; exact Hd.
  - destruct buf as [| b buf]; [destruct fuel'; exact Hd |].
    destruct fuel' as [| fuel']; [lia |].
    cbn [decodeGeometry] in *.
    destruct (readCommand (b :: buf)) as [[c rest] |]; [| discriminate].
    destruct (decodeGeometry fuel rest) as [cs |] eqn:Hrest; [| discriminate].
    rewrite (IH fuel' rest cs Hrest ltac:(lia)). exact Hd.
Qed.

Lemma decodesTo_read buf cmds : decodesTo buf cmds -> readGeometry buf = Some cmds.
Proof.
  intros (fuel & Hle & Hd). unfold readGeometry.
  apply (decodeGeometry_more fuel); assumption.
Qed.

Lemma decodesTo_nil : decodesTo [] [].
Proof. exists 0%nat. split; [simpl; lia | reflexivity]. Qed.

Lemma decodesTo_cons x rest c cs :
  readCommand (x ++ rest) = Some (c, rest) -> x <> [] ->
  decodesTo rest cs -> decodesTo (x ++ rest) (c :: cs).
Proof.
  intros Hr Hne (fuel & Hle & Hd). exists (S fuel). split.
  - rewrite length_app. destruct x; [congruence |]. cbn [length]. lia.
  - destruct x as [| b x]; [congruence |]. cbn [app] in *.
    cbn [decodeGeometry]. rewrite Hr, Hd. reflexivity.
Qed.

Lemma commandInteger_decode w count :
  0 <= count < 2 ^ 29 ->
  let c := commandInteger (which_id w) count in
  0 <= c < 2 ^ 32 /\ Z.land c 7 = which_id w /\ Z.shiftr c 3 = count.
Proof.
  intros Hc. cbv zeta. unfold commandInteger.
  assert (Hid : Z.land (which_id w) 7 = which_id w) by (destruct w; reflexivity).
  assert (Hidr : 0 <= which_id w < 2 ^ 3) by (destruct w; simpl; lia).
  rewrite Hid. rewrite Z.shiftl_mul_pow2 by lia.
  rewrite int64_small by lia.
  rewrite lor_low_high by lia.
  unfold uint32. rewrite Z.mod_small by lia.
  change (2 ^ 3) with 8 in *.
  split; [lia |]. split.
  - change 7 with (Z.ones 3). rewrite Z.land_ones by lia.
    change (2 ^ 3) with 8. rewrite Z.mod_add by lia. apply Z.mod_small. lia.
  - rewrite Z.shiftr_div_pow2 by lia. change (2 ^ 3) with 8.
    rewrite Z.div_add by lia. rewrite Z.div_small by lia. lia.
Qed.

Lemma readPairs_pair dx dy rest :
  - 2 ^ 63 <= dx < 2 ^ 63 -> - 2 ^ 63 <= dy < 2 ^ 63 ->
  forall n ps rest',
    readPairs n rest = Some (ps, rest') ->
    readPairs (S n) (PutVarint dx ++ PutVarint dy ++ rest) =
      Some ((dx, dy) :: ps, rest').
Proof.
  intros Hx Hy n ps rest' Hr. cbn [readPairs].
  rewrite Varint_PutVarint by exact Hx.
  pose proof (PutVarint_length_pos dx).
  destruct (Z.leb_spec (len (PutVarint dx)) 0); [lia |].
  rewrite to_nat_len, drop_app_length.
  rewrite Varint_PutVarint by exact Hy.
  pose proof (PutVarint_length_pos dy).
  destruct (Z.leb_spec (len (PutVarint dy)) 0); [lia |].
  rewrite to_nat_len, drop_app_length. rewrite Hr. reflexivity.
Qed.

(** The inner loop writes the deltas of its operations, and leaves the
    last point behind for the operations that follow. *)
Lemma appendCoords_spec cs e : forall lx ly,
  exists b x y,
    Feature.appendCoords cs e [] lx ly = (b, x, y)
    /\ (forall rest,
          readPairs (length cs) (b ++ rest) =
            Some (deltas lx ly (map (scaledPoint e) cs), rest))
    /\ (forall more,
          deltas lx ly (map (scaledPoint e) cs ++ more) =
            deltas lx ly (map (scaledPoint e) cs) ++ deltas x y more).
Proof.
  induction cs as [| c cs IH]; intros lx ly.
  - exists [], lx, ly. repeat apply conj; reflexivity.
  - cbn [Feature.appendCoords]. cbv zeta. rewrite appendCoords_acc.
    destruct (IH (scaled (command.x c) e) (scaled (command.y c) e))
      as (b & x & y & Hb & Hread & Hmore).
    rewrite Hb. eexists. exists x, y. split; [reflexivity |]. split.
    + intros rest. unfold appendVarint. rewrite app_nil_l, <- !app_assoc.
      cbn [length map deltas]. unfold scaledPoint at 1.
      apply readPairs_pair; [apply int64_range | apply int64_range |].
      apply Hread.
    + intros more. cbn [map app deltas]. unfold scaledPoint at 1 3.
      rewrite Hmore. reflexivity.
Qed.

Lemma countRun_spec w rest :
  exists n : nat,
    Feature.countRun w rest = Z.of_nat n
    /\ (n <= length rest)%nat
    /\ Forall (fun c => command.which c = w) (take n rest).
Proof.
  induction rest as [| c rest IH]; cbn [Feature.countRun].
  - exists 0%nat. repeat apply conj; [reflexivity | simpl; lia | constructor].
  - destruct (which_eqb (command.which c) w) eqn:Heq.
    + destruct IH as (n & Hn & Hle & Hall). exists (S n).
      repeat apply conj.
      * rewrite Hn. lia.
      * cbn [length]. lia.
      * cbn [take]. constructor; [| exact Hall].
        destruct (command.which c), w; try discriminate; reflexivity.
    + exists 0%nat. repeat apply conj; [reflexivity | lia | constructor].
Qed.

(** The length of the geometry is enough fuel for the loop. *)
Lemma appendCommands_fuel f1 : forall f2 g e gpb lx ly,
  (length g <= f1)%nat -> (length g <= f2)%nat ->
  Feature.appendCommands f1 g e gpb lx ly =
    Feature.appendCommands f2 g e gpb lx ly.
Proof.
  induction f1 as [| f1 IH]; intros f2 g e gpb lx ly H1 H2.
  - destruct g; [| cbn [length] in H1; lia]. destruct f2; reflexivity.
  - destruct g as [| c rest]; [destruct f2; reflexivity |].
    destruct f2 as [| f2]; [cbn [length] in H2; lia |].
    cbn [length] in H1, H2. cbn [Feature.appendCommands]. cbv zeta.
    destruct (countRun_spec (command.which c) rest) as (n & Hn & Hle & _).
    rewrite Hn. replace (Z.to_nat (1 + Z.of_nat n)) with (S n) by lia.
    destruct (command.which c).
    + destruct (Feature.appendCoords _ e _ lx ly) as [[b x] y].
      apply IH; rewrite length_drop; cbn [length]; lia.
    + destruct (Feature.appendCoords _ e _ lx ly) as [[b x] y].
      apply IH; rewrite length_drop; cbn [length]; lia.
    + apply IH; lia.
Qed.

Lemma points_app g1 g2 e : points (g1 ++ g2) e = points g1 e ++ points g2 e.
Proof. unfold points. rewrite List.filter_app, map_app. reflexivity. Qed.

Lemma points_all run e :
  Forall (fun c => isPoint c = true) run -> points run e = map (scaledPoint e) run.
Proof.
  intros Hall. unfold points.
  induction Hall as [| c run Hc Hall IH]; [reflexivity |].
  cbn [List.filter]. rewrite Hc. cbn [map]. rewrite IH. reflexivity.
Qed.

Lemma readCommand_points w count b ps rest :
  w <> closePath -> 0 <= count < 2 ^ 29 ->
  readPairs (Z.to_nat count) (b ++ rest) = Some (ps, rest) ->
  readCommand (PutUvarint (uint64 (commandInteger (which_id w) count))
               ++ b ++ rest) =
    Some (mkG (which_id w) count ps, rest).
Proof.
  intros Hw Hc Hr. unfold readCommand.
  destruct (commandInteger_decode w count Hc) as (Hrange & Hid & Hcount).
  rewrite uint64_small by lia.
  rewrite Uvarint_PutUvarint by lia.
  pose proof (PutUvarint_length_pos (commandInteger (which_id w) count)).
  destruct (Z.leb_spec (len (PutUvarint (commandInteger (which_id w) count))) 0);
    [lia |].
  rewrite to_nat_len, drop_app_length. rewrite Hid, Hcount.
  assert (Hp : (which_id w =? 1) || (which_id w =? 2) = true)
    by (destruct w; [reflexivity | reflexivity | congruence]).
  rewrite Hp, Hr. reflexivity.
Qed.

Lemma readCommand_close count rest :
  0 <= count < 2 ^ 29 ->
  readCommand (PutUvarint (uint64 (commandInteger (which_id closePath) count))
               ++ rest) =
    Some (mkG 7 count [], rest).
Proof.
  intros Hc. unfold readCommand.
  destruct (commandInteger_decode closePath count Hc) as (Hrange & Hid & Hcount).
  rewrite uint64_small by lia.
  rewrite Uvarint_PutUvarint by lia.
  pose proof (PutUvarint_length_pos (commandInteger (which_id closePath) count)).
  destruct (Z.leb_spec
              (len (PutUvarint (commandInteger (which_id closePath) count))) 0);
    [lia |].
  rewrite to_nat_len, drop_app_length. rewrite Hid, Hcount. reflexivity.
Qed.

Lemma PutUvarint_nonempty x : PutUvarint x <> [].
Proof.
  pose proof (PutUvarint_length_pos x) as H. intros Heq. rewrite Heq in H.
  unfold len in H. simpl in H. lia.
Qed.

Lemma which_eqb_eq a b : which_eqb a b = true <-> a = b.
Proof. destruct a, b; cbn; split; intros H; try reflexivity; discriminate. Qed.

Lemma runs_cons c : forall rest,
  runs (c :: rest) =
    (command.which c, 1 + Feature.countRun (command.which c) rest)
    :: runs (drop (Z.to_nat (Feature.countRun (command.which c) rest)) rest).
Proof.
  intros rest. revert c.
  induction rest as [| c' rest IH]; intros c; [reflexivity |].
  change (runs (c :: c' :: rest)) with
    (match runs (c' :: rest) with
     | (w, k) :: rs =>
         if which_eqb (command.which c) w then (w, k + 1) :: rs
         else (command.which c, 1) :: (w, k) :: rs
     | [] => [(command.which c, 1)]
     end).
  rewrite (IH c'). cbn [Feature.countRun].
  destruct (which_eqb (command.which c) (command.which c')) eqn:Heq.
  - apply which_eqb_eq in Heq. rewrite <- Heq.
    replace (which_eqb (command.which c) (command.which c)) with true
      by (symmetry; apply which_eqb_eq; reflexivity).
    destruct (countRun_spec (command.which c) rest) as (n & Hn & _).
    rewrite Hn. replace (Z.to_nat (1 + Z.of_nat n)) with (S (Z.to_nat (Z.of_nat n))) by lia.
    cbn [drop]. f_equal. f_equal. lia.
  - replace (which_eqb (command.which c') (command.which c)) with false.
    2:{ symmetry. destruct (which_eqb (command.which c') (command.which c)) eqn:H;
          [| reflexivity].
        apply which_eqb_eq in H. rewrite H in Heq.
        rewrite (proj2 (which_eqb_eq _ _) eq_refl) in Heq. discriminate. }
    change (Z.to_nat 0) with 0%nat. rewrite drop_0, (IH c'). reflexivity.
Qed.

Lemma emitted_point c rest :
  command.which c <> closePath ->
  emitted (c :: rest) =
    (command.which c, 1 + Feature.countRun (command.which c) rest)
    :: emitted (drop (Z.to_nat (Feature.countRun (command.which c) rest)) rest).
Proof.
  intros Hw. unfold emitted. rewrite runs_cons. cbn [map concat].
  unfold emittedRun at 1. cbn [fst snd].
  destruct (command.which c); [reflexivity | reflexivity | congruence].
Qed.

Lemma emitted_close c rest :
  command.which c = closePath ->
  emitted (c :: rest) =
    (closePath, 1 + Feature.countRun closePath rest) :: emitted rest.
Proof.
  intros Hw. unfold emitted. rewrite runs_cons, Hw. cbn [map concat].
  unfold emittedRun at 1. cbn [fst snd].
  destruct (countRun_spec closePath rest) as (n & Hn & Hle & Hall).
  rewrite Hn. replace (Z.to_nat (1 + Z.of_nat n)) with (S n) by lia.
  rewrite Nat2Z.id. cbn [countdown app].
  replace (Z.of_nat (S n)) with (1 + Z.of_nat n) by lia. f_equal.
  destruct rest as [| c' rest']; [destruct n; [reflexivity | cbn in Hle; lia] |].
  cbn [Feature.countRun] in Hn.
  destruct (which_eqb (command.which c') closePath) eqn:Heq.
  - apply which_eqb_eq in Heq. rewrite runs_cons, Heq. cbn [map concat].
    unfold emittedRun at 2. cbn [fst snd].
    destruct n as [| n];
      [destruct (countRun_spec closePath rest') as (k & Hk & _); lia |].
    assert (Hc : Feature.countRun closePath rest' = Z.of_nat n) by lia.
    rewrite Hc. replace (Z.to_nat (1 + Z.of_nat n)) with (S n) by lia.
    rewrite Nat2Z.id. cbn [drop]. reflexivity.
  - assert (n = 0%nat) by lia. subst n. reflexivity.
Qed.

(** The loop of the packer, read back: every iteration is one command, and
    the coordinate pairs of all commands together are the deltas of the
    MoveTo and LineTo points, each against the point before it. *)
Lemma appendCommands_decode fuel : forall g e lx ly,
  (length g <= fuel)%nat -> len g < 2 ^ 29 ->
  exists cmds,
    decodesTo (Feature.appendCommands fuel g e [] lx ly) cmds
    /\ concat (map gpairs cmds) = deltas lx ly (points g e)
    /\ map commandOf cmds = map commandFor (emitted g).
Proof.
  induction fuel as [| fuel IH]; intros g e lx ly Hfuel Hlen.
  - destruct g; [| cbn [length] in Hfuel; lia].
    exists []. split; [apply decodesTo_nil | split; reflexivity].
  - destruct g as [| c rest].
    { exists []. split; [apply decodesTo_nil | split; reflexivity]. }
    cbn [Feature.appendCommands]. cbv zeta.
    destruct (countRun_spec (command.which c) rest) as (n & Hn & Hle & Hall).
    rewrite Hn. replace (Z.to_nat (1 + Z.of_nat n)) with (S n) by lia.
    unfold appendUvarint. rewrite app_nil_l.
    assert (Hcount : 0 <= 1 + Z.of_nat n < 2 ^ 29).
    { unfold len in Hlen. cbn [length] in Hlen. lia. }
    assert (Hrest : len rest < 2 ^ 29).
    { unfold len in *. cbn [length] in Hlen. lia. }
    destruct (command.which c) eqn:Hw.
    1-2: (
      rewrite appendCoords_acc;
      destruct (appendCoords_spec (take (S n) (c :: rest)) e lx ly)
        as (b & x & y & Hb & Hread & Hmore);
      rewrite Hb; rewrite appendCommands_acc;
      destruct (IH (drop (S n) (c :: rest)) e x y)
        as (cmds & Hdec & Hpairs & Hcmds);
      [ rewrite length_drop; cbn [length] in *; lia
      | unfold len in *; rewrite length_drop; cbn [length] in *; lia
      | ];
      assert (Hrun : length (take (S n) (c :: rest)) = S n)
        by (rewrite length_take; cbn [length]; lia);
      assert (Hpts : points (take (S n) (c :: rest)) e =
                     map (scaledPoint e) (take (S n) (c :: rest)))
        by (apply points_all; cbn [take]; constructor;
            [ unfold isPoint; rewrite Hw; reflexivity
            | eapply Forall_impl; [exact Hall |];
              intros c' Hc'; unfold isPoint; rewrite Hc'; reflexivity ]);
      eexists; split;
      [ apply decodesTo_cons;
        [ rewrite <- app_assoc; apply readCommand_points;
          [ discriminate | exact Hcount
          | replace (Z.to_nat (1 + Z.of_nat n)) with (S n) by lia;
            rewrite <- Hrun at 1; apply Hread ]
        | intros Heq; apply app_eq_nil in Heq; destruct Heq as [Heq _];
          exact (PutUvarint_nonempty _ Heq)
        | exact Hdec ]
      | split;
        [ cbn [map concat gpairs]; rewrite Hpairs, <- Hmore, <- Hpts;
          rewrite <- points_app, take_drop; reflexivity
        | rewrite emitted_point by (rewrite Hw; discriminate);
          rewrite Hw, Hn, Nat2Z.id; cbn [map]; cbn [skipn] in Hcmds;
          rewrite <- Hcmds;
          reflexivity ] ]).
    rewrite appendCommands_acc.
    destruct (IH rest e lx ly) as (cmds & Hdec & Hpairs & Hcmds);
      [cbn [length] in Hfuel; lia | exact Hrest |].
    eexists. split; [| split].
    + apply decodesTo_cons;
        [apply readCommand_close; exact Hcount | apply PutUvarint_nonempty
        | exact Hdec].
    + cbn [map concat gpairs app]. rewrite Hpairs.
      unfold points. cbn [List.filter].
      replace (isPoint c) with false by (unfold isPoint; rewrite Hw; reflexivity).
      reflexivity.
    + rewrite emitted_close by exact Hw. rewrite Hn. cbn [map].
      rewrite <- Hcmds. reflexivity.
Qed.





Example geometry_deltas_stream :
  let g := [command.mk moveTo 10 10; command.mk lineTo 20 15;
            command.mk closePath 0 0; command.mk lineTo 5 5] in
  readGeometry (Feature.appendGeometry g 4096) =
    Some [mkG 1 1 [(160, 160)]; mkG 2 1 [(160, 80)]; mkG 7 1 [];
          mkG 2 1 [(-240, -160)]].
Proof. vm_compute. reflexivity. Qed.


(** ** End to end *)

(** A tile with one layer "t" holding one Point feature at (10, 10) with
    the tag ("k", uint64 1) and no explicit extent. *)
Example render_one_point :
  let ops := [OpAddLayer [116]; OpAddFeature 0 Point;
              OpAddTag 0 0 [107] (VUint64 1); OpMoveTo 0 0 10 10] in
  let tl := build (fun _ _ => 0%float) (Tile.mk [] 0 0 0 None) ops in
  let body := [10; 1; 116;
               18; 13; 18; 2; 0; 0; 24; 1; 34; 5; 9; 192; 2; 192; 2;
               26; 1; 107; 34; 2; 40; 1; 120; 2] in
  Tile.Render tl = Some (26 :: 27 :: body)
  /\ map Layer.body (Tile.layers tl) = [Some body]
  /\ parseMessage body =
       Some [(1, WBytes [116]);
             (2, WBytes [18; 2; 0; 0; 24; 1; 34; 5; 9; 192; 2; 192; 2]);
             (3, WBytes [107]); (4, WBytes [40; 1]); (15, WVarint 2)]
  /\ readGeometry [9; 192; 2; 192; 2] = Some [mkG 1 1 [(160, 160)]].
Proof. cbv zeta. repeat apply conj; vm_compute; reflexivity. Qed.

(** ** The commands of the packed stream *)

(** What a reader finds in the stream: after the synthesized MoveTo, if
    any, the commands [emitted] lists. *)
Lemma packer_commands (g : list command.t) (e : float) :
  len g < 2 ^ 29 ->
  exists cmds,
    readGeometry (Feature.appendGeometry g e) = Some cmds
    /\ map commandOf cmds =
         (if needsMove g then [(1, 1)] else []) ++ map commandFor (emitted g).
Proof.
  intros Hlen. unfold Feature.appendGeometry, needsMove.
  destruct g as [| c rest]; [exists []; split; reflexivity |].
  destruct (appendCommands_decode (length (c :: rest)) (c :: rest) e 0 0
              ltac:(lia) Hlen) as (cmds & Hdec & _ & Hcmds).
  destruct (which_eqb (command.which c) moveTo).
  - exists cmds. split; [apply decodesTo_read; exact Hdec | exact Hcmds].
  - exists (mkG 1 1 [(0, 0)] :: cmds). split.
    + apply decodesTo_read. rewrite appendCommands_acc.
      apply decodesTo_cons; [reflexivity | discriminate | exact Hdec].
    + cbn [map negb app]. rewrite Hcmds. reflexivity.
Qed.

Lemma emitted_single_close rs :
  Forall (fun r => fst r = closePath -> snd r = 1) rs ->
  concat (map emittedRun rs) = rs.
Proof.
  induction 1 as [| r rs Hr _ IH]; [reflexivity |].
  cbn [map concat]. rewrite IH. destruct r as [w k]. unfold emittedRun.
  cbn [fst snd] in *. destruct w; try reflexivity.
  rewrite (Hr eq_refl). reflexivity.
Qed.

(** When no two ClosePath are adjacent, the stream holds exactly one
    command integer per maximal run, with the run's kind and length. *)
Lemma packer_one_command_per_run (g : list command.t) (e : float) :
  len g < 2 ^ 29 ->
  Forall (fun r => fst r = closePath -> snd r = 1) (runs g) ->
  exists cmds,
    readGeometry (Feature.appendGeometry g e) = Some cmds
    /\ map commandOf cmds =
         (if needsMove g then [(1, 1)] else []) ++ map commandFor (runs g).
Proof.
  intros Hlen Hruns. destruct (packer_commands g e Hlen) as (cmds & Hr & Hc).
  exists cmds. split; [exact Hr |]. rewrite Hc. unfold emitted.
  rewrite emitted_single_close by exact Hruns. reflexivity.
Qed.

(** A run of [k + 2] ClosePath is written as [k + 2] command integers. *)
Lemma closePath_run_emitted (k : nat) :
  let g := repeat (command.mk closePath 0 0) (S (S k)) in
  runs g = [(closePath, Z.of_nat (S (S k)))]
  /\ emitted g = countdown (S (S k))
  /\ length (emitted g) = S (S k).
Proof.
  cbv zeta.
  assert (Hruns : forall n, runs (repeat (command.mk closePath 0 0) (S n)) =
                            [(closePath, Z.of_nat (S n))]).
  { induction n as [| n IH]; [reflexivity |].
    change (repeat (command.mk closePath 0 0) (S (S n)))
      with (command.mk closePath 0 0 :: repeat (command.mk closePath 0 0) (S n)).
    change (runs (?c :: ?r)) with
      (match runs r with
       | (w, k) :: rs =>
           if which_eqb (command.which c) w then (w, k + 1) :: rs
           else (command.which c, 1) :: (w, k) :: rs
       | [] => [(command.which c, 1)]
       end).
    rewrite IH. cbn [command.which which_eqb]. f_equal. f_equal. lia. }
  assert (Hlen : forall n, length (countdown n) = n).
  { induction n as [| n IH]; [reflexivity |]. cbn [countdown length].
    rewrite IH. reflexivity. }
  split; [apply Hruns |].
  unfold emitted. rewrite Hruns. cbn [map concat]. rewrite app_nil_r.
  unfold emittedRun. cbn [fst snd]. rewrite Nat2Z.id.
  split; [reflexivity | apply Hlen].
Qed.

(** * Further properties of the encoder *)

(** ** Varints *)

Lemma lor_byte_bound a : 0 <= a < 256 -> 0 <= Z.lor a 128 < 256.
Proof.
  intros Ha. split; [apply Z.lor_nonneg; lia |].
  destruct (Z.eq_dec (Z.lor a 128) 0) as [-> | Hne]; [lia |].
  assert (Hnn : 0 <= Z.lor a 128) by (apply Z.lor_nonneg; lia).
  change 256 with (2 ^ 8).
  apply (proj2 (Z.log2_lt_pow2 (Z.lor a 128) 8 ltac:(lia))).
  rewrite Z.log2_lor by lia.
  apply Z.max_lub_lt; [| reflexivity].
  destruct (Z.eq_dec a 0) as [-> | Hz]; [reflexivity |].
  apply (proj1 (Z.log2_lt_pow2 a 8 ltac:(lia))). change (2 ^ 8) with 256. lia.
Qed.

Lemma PutUvarint_shape_ind k : forall n,
  0 <= n < 2 ^ (7 * Z.of_nat k) ->
  len (PutUvarint n) = (if n =? 0 then 1 else Z.log2 n / 7 + 1)
  /\ Forall (fun b => 0 <= b < 256) (PutUvarint n)
  /\ exists front lastb,
       PutUvarint n = front ++ [lastb]
       /\ Forall (fun b => 128 <= b) front /\ 0 <= lastb < 128.
Proof.
  induction k as [| k IH]; intros n Hn.
  - change (2 ^ (7 * Z.of_nat 0)) with 1 in Hn. assert (n = 0) by lia. subst n.
    change (PutUvarint 0) with [0].
    split; [reflexivity |]. split; [repeat constructor; lia |].
    exists [], 0. repeat apply conj; [reflexivity | constructor | lia | lia].
  - rewrite PutUvarint_unfold by lia.
    destruct (Z.leb_spec 128 n) as [Hge | Hlt].
    + assert (Hs : 0 <= Z.shiftr n 7 < 2 ^ (7 * Z.of_nat k)).
      { rewrite Z.shiftr_div_pow2 by lia. split; [apply Z.div_pos; lia |].
        apply Z.div_lt_upper_bound; [lia |].
        rewrite <- Z.pow_add_r by lia.
        replace (7 + 7 * Z.of_nat k) with (7 * Z.of_nat (S k)) by lia. lia. }
      destruct (IH _ Hs) as (Hlen & Hbytes & front & lastb & Heq & Hfront & Hlast).
      assert (Hs1 : 1 <= Z.shiftr n 7).
      { rewrite Z.shiftr_div_pow2 by lia. change (2 ^ 7) with 128.
        apply Z.div_le_lower_bound; lia. }
      repeat apply conj.
      * unfold len in *. cbn [length]. rewrite Nat2Z.inj_succ, Hlen.
        destruct (Z.eqb_spec (Z.shiftr n 7) 0); [lia |].
        destruct (Z.eqb_spec n 0); [lia |].
        rewrite Z.log2_shiftr by lia.
        assert (7 <= Z.log2 n).
        { change 7 with (Z.log2 128). apply Z.log2_le_mono. lia. }
        rewrite Z.max_r by lia.
        replace (Z.log2 n) with ((Z.log2 n - 7) + 1 * 7) at 2 by lia.
        rewrite Z.div_add by lia. lia.
      * constructor; [| exact Hbytes].
        apply lor_byte_bound. unfold to_byte. apply Z.mod_pos_bound. lia.
      * exists (Z.lor (to_byte n) 128 :: front), lastb.
        repeat apply conj; [rewrite Heq; reflexivity | | lia | lia].
        constructor; [| exact Hfront].
        apply continuation_ge. unfold to_byte. apply Z.mod_pos_bound. lia.
    + unfold to_byte. rewrite Z.mod_small by lia.
      repeat apply conj.
      * destruct (Z.eqb_spec n 0); [reflexivity |].
        assert (Z.log2 n < 7)
          by (apply (proj1 (Z.log2_lt_pow2 n 7 ltac:(lia)));
              change (2 ^ 7) with 128; lia).
        pose proof (Z.log2_nonneg n).
        rewrite Z.div_small by lia. reflexivity.
      * repeat constructor; lia.
      * exists [], n. repeat apply conj; [reflexivity | constructor | lia | lia].
Qed.

(** X1: [appendUvarint] appends, for a uint64 [n], 1 + floor(log2 n / 7)
    bytes (one byte for 0), at most ten; every byte is below 256, every
    byte but the last has the continuation bit (is at least 128) and the
    last has not. *)
Theorem appendUvarint_shape (pb : list Z) (n : Z) (Hn : 0 <= n < 2 ^ 64) :
  exists front lastb,
    appendUvarint pb n = pb ++ front ++ [lastb]
    /\ Forall (fun b => 128 <= b < 256) front /\ 0 <= lastb < 128
    /\ len front + 1 = (if n =? 0 then 1 else Z.log2 n / 7 + 1)
    /\ len front + 1 <= 10.
Proof.
  destruct (PutUvarint_shape_ind 10 n) as (Hlen & Hbytes & front & lastb & Heq & Hf & Hl).
  { split; [lia |]. apply Z.lt_le_trans with (2 ^ 64); [lia |].
    apply Z.pow_le_mono_r; lia. }
  exists front, lastb. unfold appendUvarint. rewrite Heq.
  rewrite Heq in Hlen, Hbytes. rewrite len_app in Hlen.
  change (len [lastb]) with 1 in Hlen.
  pose proof (PutUvarint_length n Hn) as Hten. rewrite Heq, len_app in Hten.
  change (len [lastb]) with 1 in Hten.
  repeat apply conj; try lia; try reflexivity.
  apply Forall_app in Hbytes. destruct Hbytes as [Hb _].
  rewrite Forall_forall in *. intros b Hin.
  specialize (Hb b Hin). specialize (Hf b Hin). lia.
Qed.

Lemma appendUvarint_shape_witness :
  exists front lastb,
    appendUvarint [26] 300 = [26] ++ front ++ [lastb]
    /\ Forall (fun b => 128 <= b < 256) front /\ 0 <= lastb < 128
    /\ len front + 1 = (if 300 =? 0 then 1 else Z.log2 300 / 7 + 1)
    /\ len front + 1 <= 10.
Proof. apply (appendUvarint_shape [26] 300). lia. Defined.

(** X2: a varint is read back from the front of any longer buffer, with
    the number of bytes it occupies, so the encodings are prefix-free: if
    two buffers that start with a varint are equal, the numbers and the
    rests are equal.  The same holds for signed varints. *)
Theorem varints_self_delimiting (n m i j : Z) (rest1 rest2 : list Z)
  (Hn : 0 <= n < 2 ^ 64) (Hm : 0 <= m < 2 ^ 64)
  (Hi : - 2 ^ 63 <= i < 2 ^ 63) (Hj : - 2 ^ 63 <= j < 2 ^ 63) :
  Uvarint (appendUvarint [] n ++ rest1) = (n, len (appendUvarint [] n))
  /\ Varint (appendVarint [] i ++ rest1) = (i, len (appendVarint [] i))
  /\ (appendUvarint [] n ++ rest1 = appendUvarint [] m ++ rest2 ->
      n = m /\ rest1 = rest2)
  /\ (appendVarint [] i ++ rest1 = appendVarint [] j ++ rest2 ->
      i = j /\ rest1 = rest2).
Proof.
  unfold appendUvarint, appendVarint. rewrite !app_nil_l.
  repeat apply conj.
  - apply Uvarint_PutUvarint. exact Hn.
  - apply Varint_PutVarint. exact Hi.
  - intros Heq.
    pose proof (Uvarint_PutUvarint n rest1 Hn) as H1.
    pose proof (Uvarint_PutUvarint m rest2 Hm) as H2.
    rewrite Heq, H2 in H1. injection H1 as Hnm _. subst m.
    split; [reflexivity |]. apply app_inv_head in Heq. exact Heq.
  - intros Heq.
    pose proof (Varint_PutVarint i rest1 Hi) as H1.
    pose proof (Varint_PutVarint j rest2 Hj) as H2.
    rewrite Heq, H2 in H1. injection H1 as Hij _. subst j.
    split; [reflexivity |]. apply app_inv_head in Heq. exact Heq.
Qed.

Lemma varints_self_delimiting_witness :
  Uvarint (appendUvarint [] 300 ++ [1; 2]) = (300, len (appendUvarint [] 300))
  /\ Varint (appendVarint [] (-2) ++ [1; 2]) = (-2, len (appendVarint [] (-2)))
  /\ (appendUvarint [] 300 ++ [1; 2] = appendUvarint [] 300 ++ [1; 2] ->
      300 = 300 /\ [1; 2] = [1; 2])
  /\ (appendVarint [] (-2) ++ [1; 2] = appendVarint [] (-2) ++ [1; 2] ->
      -2 = -2 /\ [1; 2] = [1; 2]).
Proof.
  apply (varints_self_delimiting 300 300 (-2) (-2) [1; 2] [1; 2]); lia.
Defined.

(** ** Command integers *)

(** X3: the command integer of an operation kind and a count below 2^59 is
    the opcode plus eight times the low 29 bits of the count: the opcode
    and the count are read back from it while the count is below 2^29, and
    a count of 2^29 or more wraps around. *)
Theorem commandInteger_low_bits (w : which_t) (count : Z)
  (Hc : 0 <= count < 2 ^ 59) :
  commandInteger (which_id w) count = which_id w + 8 * (count mod 2 ^ 29)
  /\ Z.land (commandInteger (which_id w) count) 7 = which_id w
  /\ Z.shiftr (commandInteger (which_id w) count) 3 = count mod 2 ^ 29
  /\ (count < 2 ^ 29 -> Z.shiftr (commandInteger (which_id w) count) 3 = count)
  /\ commandInteger (which_id w) (count + 2 ^ 29) =
       commandInteger (which_id w) count.
Proof.
  assert (Hid : Z.land (which_id w) 7 = which_id w) by (destruct w; reflexivity).
  assert (Hidr : 0 <= which_id w < 8) by (destruct w; simpl; lia).
  assert (Hval : forall c, 0 <= c < 2 ^ 60 ->
            commandInteger (which_id w) c = which_id w + 8 * (c mod 2 ^ 29)).
  { intros c Hcr. unfold commandInteger. rewrite Hid.
    rewrite Z.shiftl_mul_pow2 by lia. rewrite int64_small by lia.
    rewrite lor_low_high by (change (2 ^ 3) with 8; lia).
    unfold uint32. change (2 ^ 3) with 8.
    pose proof (Z.div_mod c (2 ^ 29) ltac:(lia)) as Hdm.
    pose proof (Z.mod_pos_bound c (2 ^ 29) ltac:(lia)) as Hmb.
    symmetry. apply Z.mod_unique_pos with (q := c / 2 ^ 29); lia. }
  pose proof (Z.mod_pos_bound count (2 ^ 29) ltac:(lia)) as Hmb.
  rewrite (Hval count) by lia.
  set (m := count mod 2 ^ 29) in *.
  replace (which_id w + 8 * m) with (which_id w + m * 8) by lia.
  repeat apply conj.
  - lia.
  - change 7 with (Z.ones 3). rewrite Z.land_ones by lia.
    change (2 ^ 3) with 8. rewrite Z.mod_add by lia.
    apply Z.mod_small. lia.
  - rewrite Z.shiftr_div_pow2 by lia. change (2 ^ 3) with 8.
    rewrite Z.div_add by lia. rewrite Z.div_small by lia. lia.
  - intros Hlt. rewrite Z.shiftr_div_pow2 by lia. change (2 ^ 3) with 8.
    rewrite Z.div_add by lia. rewrite Z.div_small by lia.
    subst m. rewrite Z.mod_small by lia. lia.
  - rewrite (Hval (count + 2 ^ 29)) by lia. subst m.
    replace (count + 2 ^ 29) with (count + 1 * 2 ^ 29) by lia.
    rewrite Z.mod_add by lia. lia.
Qed.

Lemma commandInteger_low_bits_witness :
  commandInteger (which_id lineTo) 3 = which_id lineTo + 8 * (3 mod 2 ^ 29)
  /\ Z.land (commandInteger (which_id lineTo) 3) 7 = which_id lineTo
  /\ Z.shiftr (commandInteger (which_id lineTo) 3) 3 = 3 mod 2 ^ 29
  /\ (3 < 2 ^ 29 -> Z.shiftr (commandInteger (which_id lineTo) 3) 3 = 3)
  /\ commandInteger (which_id lineTo) (3 + 2 ^ 29) =
       commandInteger (which_id lineTo) 3.
Proof. apply (commandInteger_low_bits lineTo 3). lia. Defined.

(** ** Keys and values *)

Lemma frame_parse t p :
  0 <= t < 128 -> Z.land t 7 = 2 -> len p < 2 ^ 64 ->
  parseMessage (frame t p) = Some [(Z.shiftr t 3, WBytes p)].
Proof.
  intros Ht Hw Hl. apply parseMessage_single; [| discriminate].
  unfold frame. rewrite <- (app_nil_r p) at 2.
  apply parseField_WBytes; assumption.
Qed.

Lemma frame_inj t p q :
  0 <= t < 128 -> Z.land t 7 = 2 -> len p < 2 ^ 64 -> len q < 2 ^ 64 ->
  frame t p = frame t q -> p = q.
Proof.
  intros Ht Hw Hp Hq Heq.
  pose proof (frame_parse t p Ht Hw Hp) as H1.
  pose proof (frame_parse t q Ht Hw Hq) as H2.
  rewrite Heq, H2 in H1. congruence.
Qed.

(** X4: an encoded key is field 3 of the layer holding the bytes of the key
    string, and two key strings have the same encoding only if they are the
    same string. *)
Theorem encodeKey_roundtrip (k1 k2 : list Z)
  (H1 : len k1 < 2 ^ 63) (H2 : len k2 < 2 ^ 63) :
  parseMessage (encodeKey k1) = Some [(3, WBytes k1)]
  /\ (encodeKey k1 = encodeKey k2 <-> k1 = k2).
Proof.
  split.
  - rewrite encodeKey_frame. change 3 with (Z.shiftr 26 3).
    apply frame_parse; [lia | reflexivity | lia].
  - split; [| intros ->; reflexivity].
    rewrite !encodeKey_frame. apply frame_inj; [lia | reflexivity | lia | lia].
Qed.

Lemma encodeKey_roundtrip_witness :
  parseMessage (encodeKey [97; 98]) = Some [(3, WBytes [97; 98])]
  /\ (encodeKey [97; 98] = encodeKey [97] <-> [97; 98] = [97]).
Proof.
  apply (encodeKey_roundtrip [97; 98] [97]); vm_compute; reflexivity.
Defined.

Lemma littleEndian_PutUint32 v :
  0 <= v < 2 ^ 32 -> littleEndian (PutUint32 v) = v.
Proof.
  intros Hv. unfold PutUint32, to_byte. cbn [littleEndian].
  rewrite !Z.shiftr_div_pow2 by lia.
  change (2 ^ 8) with 256. change (2 ^ 16) with (256 * 256).
  change (2 ^ 24) with (256 * (256 * 256)).
  rewrite <- !Z.div_div by lia.
  assert (Hq : v / 256 / 256 / 256 < 256).
  { repeat (apply Z.div_lt_upper_bound; [lia |]). lia. }
  assert (0 <= v / 256 / 256 / 256) by (repeat apply Z.div_pos; lia).
  rewrite (Z.mod_small (v / 256 / 256 / 256)) by lia.
  pose proof (Z.div_mod v 256 ltac:(lia)).
  pose proof (Z.div_mod (v / 256) 256 ltac:(lia)).
  pose proof (Z.div_mod (v / 256 / 256) 256 ltac:(lia)).
  lia.
Qed.

Lemma littleEndian_PutUint64 v :
  0 <= v < 2 ^ 64 -> littleEndian (PutUint64 v) = v.
Proof.
  intros Hv. unfold PutUint64, to_byte. cbn [littleEndian].
  rewrite !Z.shiftr_div_pow2 by lia.
  change (2 ^ 8) with 256. change (2 ^ 16) with (256 * 256).
  change (2 ^ 24) with (256 * (256 * 256)).
  change (2 ^ 32) with (256 * (256 * (256 * 256))).
  change (2 ^ 40) with (256 * (256 * (256 * (256 * 256)))).
  change (2 ^ 48) with (256 * (256 * (256 * (256 * (256 * 256))))).
  change (2 ^ 56) with (256 * (256 * (256 * (256 * (256 * (256 * 256)))))).
  rewrite <- !Z.div_div by lia.
  set (q1 := v / 256). set (q2 := q1 / 256). set (q3 := q2 / 256).
  set (q4 := q3 / 256). set (q5 := q4 / 256). set (q6 := q5 / 256).
  set (q7 := q6 / 256).
  assert (Hq : 0 <= q7 < 256).
  { subst q7 q6 q5 q4 q3 q2 q1. split; [repeat apply Z.div_pos; lia |].
    repeat (apply Z.div_lt_upper_bound; [lia |]). lia. }
  rewrite (Z.mod_small q7) by lia.
  pose proof (Z.div_mod v 256 ltac:(lia)).
  pose proof (Z.div_mod q1 256 ltac:(lia)).
  pose proof (Z.div_mod q2 256 ltac:(lia)).
  pose proof (Z.div_mod q3 256 ltac:(lia)).
  pose proof (Z.div_mod q4 256 ltac:(lia)).
  pose proof (Z.div_mod q5 256 ltac:(lia)).
  pose proof (Z.div_mod q6 256 ltac:(lia)).
  fold q1 in H. fold q2 in H0. fold q3 in H1. fold q4 in H2. fold q5 in H3.
  fold q6 in H4. fold q7 in H5.
  lia.
Qed.

Lemma encodeValue_canonical v : encodeValue v = encodeValue (canonical v).
Proof. destruct v; reflexivity. Qed.

Lemma canonical_primary v : isPrimary (canonical v) = true.
Proof. destruct v; reflexivity. Qed.

Lemma valueSubmessage_len p :
  isPrimary p = true -> value_wf p -> len (valueSubmessage p) < 2 ^ 64.
Proof.
  intros Hp Hwf. destruct p; try discriminate Hp; cbn [valueSubmessage value_wf] in *.
  - unfold vpbString, appendString, appendUvarint.
    rewrite !len_app. change (len [10]) with 1. change (len []) with 0.
    pose proof (PutUvarint_length (uint64 (len s)) (uint64_range _)). lia.
  - unfold vpbUint64, appendUvarint. rewrite !len_app.
    change (len [40]) with 1. change (len []) with 0.
    pose proof (PutUvarint_length n Hwf). lia.
  - vm_compute. reflexivity.
  - vm_compute. reflexivity.
  - unfold vpbInt64, appendVarint. rewrite len_app. change (len [48]) with 1.
    pose proof (PutVarint_length n). lia.
  - destruct b; vm_compute; reflexivity.
Qed.

Lemma valueSubmessage_parse p :
  isPrimary p = true -> value_wf p ->
  parseMessage (valueSubmessage p) = Some [valueField p].
Proof.
  intros Hp Hwf.
  destruct p; try discriminate Hp;
    cbn [valueSubmessage value_wf valueField canonical] in *.
  - apply parseMessage_single; [| discriminate].
    unfold vpbString, appendString, appendUvarint.
    cbn [app]. rewrite <- (app_nil_r s) at 2.
    change 1 with (Z.shiftr 10 3).
    apply parseField_WBytes; [lia | reflexivity | lia].
  - apply parseMessage_single; [| discriminate].
    unfold vpbUint64, appendUvarint. cbn [app].
    rewrite <- (app_nil_r (PutUvarint n)).
    change 5 with (Z.shiftr 40 3).
    apply parseField_WVarint; [lia | reflexivity | lia].
  - apply parseMessage_single; [| discriminate].
    unfold vpbFloat32.
    rewrite <- (app_nil_r (PutUint32 bits)) at 1.
    change 2 with (Z.shiftr 21 3).
    apply parseField_WFixed32; [lia | reflexivity | reflexivity].
  - apply parseMessage_single; [| discriminate].
    unfold vpbFloat64.
    rewrite <- (app_nil_r (PutUint64 bits)) at 1.
    change 3 with (Z.shiftr 25 3).
    apply parseField_WFixed64; [lia | reflexivity | reflexivity].
  - apply parseMessage_single; [| discriminate].
    unfold vpbInt64, appendVarint. cbn [app].
    rewrite PutVarint_zigzag by exact Hwf.
    rewrite <- (app_nil_r (PutUvarint (zigzag n))).
    change 6 with (Z.shiftr 48 3).
    apply parseField_WVarint; [lia | reflexivity |].
    apply zigzag_range. exact Hwf.
  - destruct b; reflexivity.
Qed.

Lemma zigzag_inj a b : zigzag a = zigzag b -> a = b.
Proof.
  unfold zigzag. destruct (Z.ltb_spec a 0), (Z.ltb_spec b 0); lia.
Qed.

Lemma valueField_inj p q :
  isPrimary p = true -> isPrimary q = true -> value_wf p -> value_wf q ->
  valueField p = valueField q -> p = q.
Proof.
  intros Hp Hq Wp Wq Hf.
  destruct p; try discriminate Hp; destruct q; try discriminate Hq;
    cbn [valueField canonical value_wf] in *; try discriminate Hf.
  - congruence.
  - congruence.
  - assert (E : PutUint32 bits = PutUint32 bits0) by congruence.
    apply (f_equal littleEndian) in E.
    rewrite !littleEndian_PutUint32 in E by lia. congruence.
  - assert (E : PutUint64 bits = PutUint64 bits0) by congruence.
    apply (f_equal littleEndian) in E.
    rewrite !littleEndian_PutUint64 in E by lia. congruence.
  - assert (E : zigzag n = zigzag n0) by congruence.
    apply zigzag_inj in E. congruence.
  - destruct b, b0; try reflexivity; discriminate.
Qed.

Lemma valueSubmessage_canonical v :
  valueSubmessage v = valueSubmessage (canonical v).
Proof. destruct v; reflexivity. Qed.

Lemma encodeValue_eq_iff v1 v2 :
  value_wf (canonical v1) -> value_wf (canonical v2) ->
  (encodeValue v1 = encodeValue v2 <-> canonical v1 = canonical v2).
Proof.
  intros H1 H2.
  split; [| intros Hc; rewrite (encodeValue_canonical v1),
               (encodeValue_canonical v2), Hc; reflexivity].
  rewrite (encodeValue_canonical v1), (encodeValue_canonical v2).
  pose proof (canonical_primary v1) as P1.
  pose proof (canonical_primary v2) as P2.
  revert H1 H2 P1 P2. generalize (canonical v1) (canonical v2).
  intros p q Wp Wq Pp Pq Heq.
  rewrite !encodeValue_frame in Heq.
  apply frame_inj in Heq;
    [| lia | reflexivity | apply valueSubmessage_len; assumption
     | apply valueSubmessage_len; assumption].
  pose proof (valueSubmessage_parse p Pp Wp) as Hp.
  pose proof (valueSubmessage_parse q Pq Wq) as Hq.
  rewrite Heq, Hq in Hp. injection Hp as Hf.
  apply valueField_inj; auto.
Qed.

(** X5: two tag values have the same encoding, and so share one entry of
    the values table, exactly when the type switch brings them to the same
    value of the same one of its six kinds (string, uint64, float32,
    float64, int64, bool): equal numbers of different kinds, or a number
    and its text, never share an entry.  The Value submessage of a value
    holds the single field of its kind. *)
Theorem encodeValue_dedup (v1 v2 : value)
  (H1 : value_wf (canonical v1)) (H2 : value_wf (canonical v2)) :
  (encodeValue v1 = encodeValue v2 <-> canonical v1 = canonical v2)
  /\ parseMessage (valueSubmessage v1) = Some [valueField v1].
Proof.
  assert (Hfield : forall v, valueField v = valueField (canonical v))
    by (intros v; destruct v; reflexivity).
  split; [apply encodeValue_eq_iff; assumption |].
  rewrite valueSubmessage_canonical, Hfield.
  apply valueSubmessage_parse; [apply canonical_primary | exact H1].
Qed.

Lemma encodeValue_dedup_witness :
  (encodeValue (VUint8 5) = encodeValue (VInt64 5)
     <-> canonical (VUint8 5) = canonical (VInt64 5))
  /\ parseMessage (valueSubmessage (VUint8 5)) = Some [valueField (VUint8 5)].
Proof.
  apply (encodeValue_dedup (VUint8 5) (VInt64 5)); vm_compute; split; congruence.
Defined.

(** ** The Feature submessage *)

Lemma appendTags_spec ts : forall pb idxs,
  Feature.appendTags ts pb idxs =
    if (length idxs <? 2 * length ts)%nat then None
    else Some (pb ++ packedIndices (take (2 * length ts) idxs),
               drop (2 * length ts) idxs).
Proof.
  induction ts as [| tg ts IH]; intros pb idxs; cbn [Feature.appendTags length].
  - cbn. rewrite app_nil_r. reflexivity.
  - replace (2 * S (length ts))%nat with (S (S (2 * length ts))) by lia.
    destruct idxs as [| k [| v rest]]; try reflexivity.
    rewrite IH. cbn [length].
    change (S (S (length rest)) <? S (S (2 * length ts)))%nat
      with (length rest <? 2 * length ts)%nat.
    destruct (length rest <? 2 * length ts)%nat; [reflexivity |].
    cbn [take drop]. unfold packedIndices, appendUvarint. cbn [map concat].
    rewrite <- !app_assoc. reflexivity.
Qed.

(** The four parts of a Feature submessage. *)
Lemma Feature_body_shape f idxs e body idxs' :
  Feature.body f idxs e = Some (body, idxs') ->
  idxs' = drop (2 * length (Feature.tags f)) idxs
  /\ body =
       (if Feature.hasID f then 8 :: PutUvarint (Feature.id f) else [])
       ++ (if 0 <? len (Feature.tags f)
           then 18 :: PutUvarint (uint64 (len (Feature.tags f) * 2))
                ++ packedIndices (take (2 * length (Feature.tags f)) idxs)
           else [])
       ++ (if Feature.geomType f =? Unknown then []
           else 24 :: PutUvarint (uint64 (Feature.geomType f)))
       ++ (if 0 <? len (Feature.geometry f)
           then frame 34 (Feature.appendGeometry (Feature.geometry f) e)
           else []).
Proof.
  unfold Feature.body. cbv zeta. rewrite appendTags_spec.
  destruct (Z.ltb_spec 0 (len (Feature.tags f))) as [Hpos | Hzero].
  - destruct (length idxs <? 2 * length (Feature.tags f))%nat; [discriminate |].
    intros H. injection H as <- <-. split; [reflexivity |].
    destruct (Feature.hasID f), (Feature.geomType f =? Unknown),
      (0 <? len (Feature.geometry f));
      unfold frame, appendUvarint; cbn [app]; rewrite <- ?app_assoc;
      cbn [app]; rewrite ?app_nil_r; reflexivity.
  - assert (Hnil : length (Feature.tags f) = 0%nat) by (unfold len in Hzero; lia).
    intros H. injection H as <- <-. rewrite Hnil. split; [reflexivity |].
    destruct (Feature.hasID f), (Feature.geomType f =? Unknown),
      (0 <? len (Feature.geometry f));
      unfold frame, appendUvarint; cbn [app]; rewrite <- ?app_assoc;
      cbn [app]; rewrite ?app_nil_r; reflexivity.
Qed.

(** X6: [Feature.append] panics exactly when the tag-index stream holds
    fewer than two entries per tag of the feature (never for a feature
    without tags); otherwise it appends one length-delimited field 2 to the
    layer buffer, leaves the bytes before it untouched and hands back the
    stream without its first [2 * len(tags)] entries. *)
Theorem Feature_append_consumes (f : Feature.t) (vpb idxs : list Z) (e : float) :
  (Feature.append f vpb idxs e = None
     <-> (length idxs < 2 * length (Feature.tags f))%nat)
  /\ (forall pb idxs',
        Feature.append f vpb idxs e = Some (pb, idxs') ->
        idxs' = drop (2 * length (Feature.tags f)) idxs
        /\ exists body, pb = vpb ++ frame 18 body)
  /\ (Feature.tags f = [] -> Feature.append f vpb idxs e <> None).
Proof.
  assert (Hnone : Feature.append f vpb idxs e = None
                  <-> (length idxs < 2 * length (Feature.tags f))%nat).
  { split.
    - intros Hn.
      destruct (Nat.lt_ge_cases (length idxs) (2 * length (Feature.tags f)))
        as [Hlt | Hge]; [exact Hlt |].
      destruct (Feature_append_ok f vpb idxs e Hge) as [pb Hpb]. congruence.
    - intros Hlt. unfold Feature.append, Feature.body. cbv zeta.
      rewrite appendTags_spec.
      destruct (Z.ltb_spec 0 (len (Feature.tags f))) as [Hpos | Hzero];
        [| unfold len in Hzero; lia].
      destruct (Nat.ltb_spec (length idxs) (2 * length (Feature.tags f)));
        [reflexivity | lia]. }
  split; [exact Hnone |]. split.
  - intros pb idxs' Happ.
    destruct (Feature_append_frame _ _ _ _ _ _ Happ) as (body & Hbody & ->).
    destruct (Feature_body_shape _ _ _ _ _ Hbody) as [-> _].
    split; [reflexivity | exists body; reflexivity].
  - intros Hnil Hn. apply Hnone in Hn. rewrite Hnil in Hn. cbn in Hn. lia.
Qed.

Lemma packedIndices_len l :
  Forall (fun k => 0 <= k < 2 ^ 64) l ->
  len l <= len (packedIndices l)
  /\ (len (packedIndices l) = len l <-> Forall (fun k => k < 128) l).
Proof.
  induction 1 as [| k l Hk Hl IH].
  - split; [reflexivity |]. split; [constructor | reflexivity].
  - unfold packedIndices in *. cbn [map concat]. rewrite len_app.
    rewrite uint64_small by exact Hk.
    pose proof (PutUvarint_length_pos k) as Hpos.
    assert (Hone : len (PutUvarint k) = 1 <-> k < 128).
    { rewrite PutUvarint_unfold by lia.
      destruct (Z.leb_spec 128 k) as [Hge | Hlt].
      - unfold len. cbn [length]. rewrite Nat2Z.inj_succ.
        pose proof (PutUvarint_length_pos (Z.shiftr k 7)) as Hp.
        unfold len in Hp. lia.
      - unfold len. cbn. lia. }
    destruct IH as [Hle Hiff].
    replace (len (k :: l)) with (1 + len l)
      by (unfold len; cbn [length]; lia).
    split; [lia |]. split.
    + intros Heq. constructor; [apply Hone; lia | apply Hiff; lia].
    + intros Hall. inversion Hall as [| ? ? Hk128 Hall']; subst.
      apply Hone in Hk128. apply Hiff in Hall'. lia.
Qed.

(** X7: the tags field of a feature is written as the byte 18, the number
    of tag indices [2 * len(tags)] as a varint, and one varint per index;
    the number written in front is the byte length of what follows it
    exactly when every index of the feature is below 128. *)
Theorem tags_field_length (f : Feature.t) (idxs : list Z) (e : float)
  (body idxs' : list Z)
  (Hb : Feature.body f idxs e = Some (body, idxs'))
  (Htags : Feature.tags f <> [])
  (Hidx : Forall (fun k => 0 <= k < 2 ^ 64) idxs) :
  let mine := take (2 * length (Feature.tags f)) idxs in
  (exists pre post,
     body = pre ++ (18 :: PutUvarint (uint64 (2 * len (Feature.tags f)))
                       ++ packedIndices mine) ++ post)
  /\ len mine = 2 * len (Feature.tags f)
  /\ (len (packedIndices mine) = 2 * len (Feature.tags f)
      <-> Forall (fun k => k < 128) mine).
Proof.
  cbv zeta.
  destruct (Feature_body_shape _ _ _ _ _ Hb) as [_ Hshape].
  assert (Hpos : (0 <? len (Feature.tags f)) = true).
  { destruct (Feature.tags f); [congruence |].
    unfold len. cbn [length]. apply Z.ltb_lt. lia. }
  rewrite Hpos in Hshape.
  assert (Hlen : len (take (2 * length (Feature.tags f)) idxs)
                 = 2 * len (Feature.tags f)).
  { unfold len. rewrite length_take.
    destruct (Nat.lt_ge_cases (length idxs) (2 * length (Feature.tags f)))
      as [Hlt | Hge]; [| lia].
    exfalso. unfold Feature.body in Hb. cbv zeta in Hb.
    rewrite Hpos, appendTags_spec in Hb.
    destruct (Nat.ltb_spec (length idxs) (2 * length (Feature.tags f)));
      [discriminate | lia]. }
  split; [| split; [exact Hlen |]].
  - exists (if Feature.hasID f then 8 :: PutUvarint (Feature.id f) else []).
    exists ((if Feature.geomType f =? Unknown then []
             else 24 :: PutUvarint (uint64 (Feature.geomType f)))
            ++ (if 0 <? len (Feature.geometry f)
                then frame 34 (Feature.appendGeometry (Feature.geometry f) e)
                else [])).
    rewrite Hshape at 1.
    replace (len (Feature.tags f) * 2) with (2 * len (Feature.tags f)) by lia.
    reflexivity.
  - rewrite <- Hlen. apply packedIndices_len.
    apply Forall_take. exact Hidx.
Qed.

Lemma tags_field_length_witness :
  let f := Feature.mk Point 0 false [mkTag [107] (VUint64 1)] [] in
  let mine := take (2 * length (Feature.tags f)) [200; 0; 7] in
  (exists pre post,
     [18; 2; 200; 1; 0; 24; 1] =
       pre ++ (18 :: PutUvarint (uint64 (2 * len (Feature.tags f)))
                  ++ packedIndices mine) ++ post)
  /\ len mine = 2 * len (Feature.tags f)
  /\ (len (packedIndices mine) = 2 * len (Feature.tags f)
      <-> Forall (fun k => k < 128) mine).
Proof.
  apply (tags_field_length
           (Feature.mk Point 0 false [mkTag [107] (VUint64 1)] [])
           [200; 0; 7] 4096 [18; 2; 200; 1; 0; 24; 1] [7]).
  - vm_compute. reflexivity.
  - discriminate.
  - repeat constructor; lia.
Defined.

Lemma packedIndices_small l :
  Forall (fun k => 0 <= k < 128) l -> packedIndices l = l.
Proof.
  induction 1 as [| k l Hk _ IH]; [reflexivity |].
  unfold packedIndices in *. cbn [map concat]. rewrite IH.
  rewrite uint64_small by lia. rewrite PutUvarint_unfold by lia.
  destruct (Z.leb_spec 128 k); [lia |].
  unfold to_byte. rewrite Z.mod_small by lia. reflexivity.
Qed.

Lemma parsesTo_frame_nil t payload :
  0 <= t < 128 -> Z.land t 7 = 2 -> len payload < 2 ^ 64 ->
  parsesTo (frame t payload) [(Z.shiftr t 3, WBytes payload)].
Proof.
  intros Ht Hw Hl. rewrite <- (app_nil_r (frame t payload)).
  apply parsesTo_frame; [exact Ht | exact Hw | exact Hl | apply parsesTo_nil].
Qed.

(** X8: when every tag index a feature reads is below 128, its submessage
    parses as a protobuf message with, in this order, the id as varint
    field 1 if an id was set, the tag indices as length-delimited field 2
    if the feature has tags, the geometry type as varint field 3 unless it
    is Unknown, and the packed geometry as length-delimited field 4 if the
    feature has operations. *)
Theorem Feature_body_fields (f : Feature.t) (idxs : list Z) (e : float)
  (body idxs' : list Z)
  (Hb : Feature.body f idxs e = Some (body, idxs'))
  (Hsmall : Forall (fun k => 0 <= k < 128)
                   (take (2 * length (Feature.tags f)) idxs))
  (Hid : 0 <= Feature.id f < 2 ^ 64)
  (Hlen : len body < 2 ^ 63) :
  parseMessage body =
    Some ((if Feature.hasID f then [(1, WVarint (Feature.id f))] else [])
          ++ (if 0 <? len (Feature.tags f)
              then [(2, WBytes (take (2 * length (Feature.tags f)) idxs))]
              else [])
          ++ (if Feature.geomType f =? Unknown then []
              else [(3, WVarint (uint64 (Feature.geomType f)))])
          ++ (if 0 <? len (Feature.geometry f)
              then [(4, WBytes (Feature.appendGeometry (Feature.geometry f) e))]
              else [])).
Proof.
  destruct (Feature_body_shape _ _ _ _ _ Hb) as [_ Hshape].
  rewrite packedIndices_small in Hshape by exact Hsmall.
  set (mine := take (2 * length (Feature.tags f)) idxs) in *.
  set (gpb := Feature.appendGeometry (Feature.geometry f) e) in *.
  assert (Hmine : (0 <? len (Feature.tags f)) = true ->
                  len mine = len (Feature.tags f) * 2).
  { intros Hpos. subst mine. unfold len. rewrite length_take.
    destruct (Nat.lt_ge_cases (length idxs) (2 * length (Feature.tags f)))
      as [Hlt | Hge]; [| lia].
    exfalso. unfold Feature.body in Hb. cbv zeta in Hb.
    rewrite Hpos, appendTags_spec in Hb.
    destruct (Nat.ltb_spec (length idxs) (2 * length (Feature.tags f)));
      [discriminate | lia]. }
  assert (Hparts :
    len (if 0 <? len (Feature.tags f)
         then 18 :: PutUvarint (uint64 (len (Feature.tags f) * 2)) ++ mine
         else [])
    + len (if 0 <? len (Feature.geometry f) then frame 34 gpb else [])
    <= len body).
  { rewrite Hshape at 1. rewrite !len_app.
    pose proof (len_nonneg (if Feature.hasID f
                            then 8 :: PutUvarint (Feature.id f) else [])).
    pose proof (len_nonneg (if Feature.geomType f =? Unknown then []
                            else 24 :: PutUvarint (uint64 (Feature.geomType f)))).
    lia. }
  assert (Hgeo : parsesTo
            (if 0 <? len (Feature.geometry f) then frame 34 gpb else [])
            (if 0 <? len (Feature.geometry f) then [(4, WBytes gpb)] else [])).
  { destruct (0 <? len (Feature.geometry f)); [| apply parsesTo_nil].
    change 4 with (Z.shiftr 34 3).
    apply parsesTo_frame_nil; [lia | reflexivity |].
    pose proof (len_frame 34 gpb).
    pose proof (len_nonneg (if 0 <? len (Feature.tags f)
         then 18 :: PutUvarint (uint64 (len (Feature.tags f) * 2)) ++ mine
         else [])). lia. }
  assert (Htype : parsesTo
            ((if Feature.geomType f =? Unknown then []
              else 24 :: PutUvarint (uint64 (Feature.geomType f)))
             ++ (if 0 <? len (Feature.geometry f) then frame 34 gpb else []))
            ((if Feature.geomType f =? Unknown then []
              else [(3, WVarint (uint64 (Feature.geomType f)))])
             ++ (if 0 <? len (Feature.geometry f) then [(4, WBytes gpb)] else []))).
  { destruct (Feature.geomType f =? Unknown); [exact Hgeo |].
    change 3 with (Z.shiftr 24 3).
    apply parsesTo_varint; [lia | reflexivity | apply uint64_range | exact Hgeo]. }
  assert (Htag : parsesTo
            ((if 0 <? len (Feature.tags f)
              then 18 :: PutUvarint (uint64 (len (Feature.tags f) * 2)) ++ mine
              else [])
             ++ (if Feature.geomType f =? Unknown then []
                 else 24 :: PutUvarint (uint64 (Feature.geomType f)))
             ++ (if 0 <? len (Feature.geometry f) then frame 34 gpb else []))
            ((if 0 <? len (Feature.tags f) then [(2, WBytes mine)] else [])
             ++ (if Feature.geomType f =? Unknown then []
                 else [(3, WVarint (uint64 (Feature.geomType f)))])
             ++ (if 0 <? len (Feature.geometry f) then [(4, WBytes gpb)] else []))).
  { destruct (0 <? len (Feature.tags f)) eqn:Hpos; [| exact Htype].
    rewrite <- (Hmine eq_refl). change 2 with (Z.shiftr 18 3) at 1.
    apply (parsesTo_frame 18 mine); [lia | reflexivity | | exact Htype].
    pose proof (len_frame 18 mine).
    unfold frame in H. rewrite <- (Hmine eq_refl) in Hparts.
    pose proof (len_nonneg (if 0 <? len (Feature.geometry f)
                            then frame 34 gpb else [])). lia. }
  apply parsesTo_message. rewrite Hshape.
  destruct (Feature.hasID f); [| exact Htag].
  change 1 with (Z.shiftr 8 3).
  apply parsesTo_varint; [lia | reflexivity | exact Hid | exact Htag].
Qed.

Lemma Feature_body_fields_witness :
  let f := Feature.mk Point 9 true [mkTag [107] (VUint64 1)]
                      [command.mk moveTo 10 10] in
  parseMessage [8; 9; 18; 2; 0; 0; 24; 1; 34; 5; 9; 192; 2; 192; 2] =
    Some ((if Feature.hasID f then [(1, WVarint (Feature.id f))] else [])
          ++ (if 0 <? len (Feature.tags f)
              then [(2, WBytes (take (2 * length (Feature.tags f)) [0; 0]))]
              else [])
          ++ (if Feature.geomType f =? Unknown then []
              else [(3, WVarint (uint64 (Feature.geomType f)))])
          ++ (if 0 <? len (Feature.geometry f)
              then [(4, WBytes (Feature.appendGeometry (Feature.geometry f) 4096))]
              else [])).
Proof.
  apply (Feature_body_fields
           (Feature.mk Point 9 true [mkTag [107] (VUint64 1)]
                       [command.mk moveTo 10 10])
           [0; 0] 4096 [8; 9; 18; 2; 0; 0; 24; 1; 34; 5; 9; 192; 2; 192; 2] []).
  - vm_compute. reflexivity.
  - repeat constructor; lia.
  - simpl. lia.
  - vm_compute. reflexivity.
Defined.

(** ** The shared tag-index stream *)

(** X9: the features of a layer read the shared stream first in, first
    out, and each finds its own tags there: when the encoder reaches a
    feature, the entries in front of the stream are, tag by tag, the
    position of the tag's encoded key in the key table and the position of
    its encoded value in the value table. *)
Theorem features_read_own_indices (l : Layer.t) (fs1 fs2 : list Feature.t)
  (f : Feature.t) (pb : list Z) (e : float)
  (Hsplit : Layer.features l = fs1 ++ f :: fs2) :
  let '(keysa, valsa, tagidxs) := Layer.collectTags l in
  exists pb1 rest,
    Layer.appendFeatures fs1 pb tagidxs e = Some (pb1, rest)
    /\ take (2 * length (Feature.tags f)) rest =
         concat (map (tagPair keysa valsa) (Feature.tags f))
    /\ Feature.append f pb1 rest e <> None.
Proof.
  unfold Layer.collectTags. cbv zeta.
  destruct (collectTags_inv l) as (_ & _ & _ & _ & Ht).
  set (st := fold_left Layer.collectFeature (Layer.features l) Layer.noTables) in *.
  assert (Hall : allTags l =
            concat (map Feature.tags fs1) ++ Feature.tags f
            ++ concat (map Feature.tags fs2)).
  { unfold allTags. rewrite Hsplit, map_app, concat_app. reflexivity. }
  rewrite Hall, !map_app, !concat_app in Ht.
  destruct (appendFeatures_ok fs1 pb (Layer.tagidxs st) e) as [pb1 Hpb1].
  { rewrite Ht, !length_app, !tagPairs_length. lia. }
  exists pb1. eexists. split; [exact Hpb1 |].
  assert (Hdrop : drop (2 * length (concat (map Feature.tags fs1)))
                       (Layer.tagidxs st) =
                  concat (map (tagPair (Layer.keysa st) (Layer.valsa st))
                              (Feature.tags f))
                  ++ concat (map (tagPair (Layer.keysa st) (Layer.valsa st))
                                 (concat (map Feature.tags fs2)))).
  { rewrite Ht. rewrite <- (tagPairs_length (Layer.keysa st) (Layer.valsa st)).
    rewrite drop_app_length. reflexivity. }
  rewrite Hdrop. split.
  - rewrite <- (tagPairs_length (Layer.keysa st) (Layer.valsa st)).
    rewrite take_app_length. reflexivity.
  - intros Hn.
    destruct (Feature_append_ok f pb1
                (concat (map (tagPair (Layer.keysa st) (Layer.valsa st))
                             (Feature.tags f))
                 ++ concat (map (tagPair (Layer.keysa st) (Layer.valsa st))
                                (concat (map Feature.tags fs2)))) e)
      as [pb2 Hpb2]; [| congruence].
    rewrite length_app, tagPairs_length. lia.
Qed.

Lemma features_read_own_indices_witness :
  let f1 := Feature.mk Point 0 false [mkTag [97] (VUint64 1)] [] in
  let f2 := Feature.mk Point 0 false [mkTag [98] (VUint64 1)] [] in
  let l := Layer.mk [116] [f1; f2] 0 false 0 0 0 None in
  let '(keysa, valsa, tagidxs) := Layer.collectTags l in
  exists pb1 rest,
    Layer.appendFeatures [f1] [] tagidxs 4096 = Some (pb1, rest)
    /\ take (2 * length (Feature.tags f2)) rest =
         concat (map (tagPair keysa valsa) (Feature.tags f2))
    /\ Feature.append f2 pb1 rest 4096 <> None.
Proof.
  exact (features_read_own_indices
           (Layer.mk [116]
              [Feature.mk Point 0 false [mkTag [97] (VUint64 1)] [];
               Feature.mk Point 0 false [mkTag [98] (VUint64 1)] []]
              0 false 0 0 0 None)
           [Feature.mk Point 0 false [mkTag [97] (VUint64 1)] []] []
           (Feature.mk Point 0 false [mkTag [98] (VUint64 1)] [])
           [] 4096 eq_refl).
Defined.

(** X10: within a layer two tags get the same key index exactly when their
    key strings are equal, and the same value index exactly when the type
    switch of [encodeValue] brings their values to the same value of the
    same kind. *)
Theorem tags_dedupe_by_content (l : Layer.t) (t1 t2 : tag)
  (Hin1 : t1 ∈ allTags l) (Hin2 : t2 ∈ allTags l)
  (Hk1 : len (key t1) < 2 ^ 63) (Hk2 : len (key t2) < 2 ^ 63)
  (Hv1 : value_wf (canonical (val t1))) (Hv2 : value_wf (canonical (val t2))) :
  let '(keysa, valsa, _) := Layer.collectTags l in
  (position (encKey t1) keysa = position (encKey t2) keysa
     <-> key t1 = key t2)
  /\ (position (encVal t1) valsa = position (encVal t2) valsa
     <-> canonical (val t1) = canonical (val t2)).
Proof.
  unfold Layer.collectTags. cbv zeta.
  pose proof (collectTags_inv l) as Hinv.
  set (st := fold_left Layer.collectFeature (Layer.features l) Layer.noTables) in *.
  destruct (collectInv_members _ _ t1 Hinv Hin1) as [Hka Hva].
  destruct (collectInv_members _ _ t2 Hinv Hin2) as [Hkb Hvb].
  split; split.
  - intros Hpos. apply position_inj in Hpos; [| assumption | assumption].
    unfold encKey in Hpos. rewrite !encodeKey_frame in Hpos.
    apply frame_inj in Hpos; [exact Hpos | lia | reflexivity | lia | lia].
  - intros Heq. unfold encKey. rewrite Heq. reflexivity.
  - intros Hpos. apply position_inj in Hpos; [| assumption | assumption].
    apply encodeValue_eq_iff; assumption.
  - intros Heq. unfold encVal.
    rewrite (proj2 (encodeValue_eq_iff _ _ Hv1 Hv2) Heq). reflexivity.
Qed.

Lemma tags_dedupe_by_content_witness :
  let t1 := mkTag [97] (VUint8 5) in
  let t2 := mkTag [97] (VUint64 5) in
  let l := Layer.mk [] [Feature.mk Point 0 false [t1; t2] []] 0 false 0 0 0 None in
  let '(keysa, valsa, _) := Layer.collectTags l in
  (position (encKey t1) keysa = position (encKey t2) keysa
     <-> key t1 = key t2)
  /\ (position (encVal t1) valsa = position (encVal t2) valsa
     <-> canonical (val t1) = canonical (val t2)).
Proof.
  apply (tags_dedupe_by_content
           (Layer.mk [] [Feature.mk Point 0 false
                           [mkTag [97] (VUint8 5); mkTag [97] (VUint64 5)] []]
                     0 false 0 0 0 None)
           (mkTag [97] (VUint8 5)) (mkTag [97] (VUint64 5))).
  - apply elem_of_cons. left. reflexivity.
  - apply elem_of_cons. right. apply elem_of_cons. left. reflexivity.
  - vm_compute. reflexivity.
  - vm_compute. reflexivity.
  - vm_compute. split; congruence.
  - vm_compute. split; congruence.
Defined.

(** ** The Layer and Tile messages *)






Lemma appendLayers_bodies ls : forall pb pb',
  Tile.appendLayers ls pb = Some pb' ->
  exists bodies,
    map Layer.body ls = map Some bodies
    /\ pb' = pb ++ concat (map (frame 26) bodies).
Proof.
  induction ls as [| l ls IH]; intros pb pb' H; cbn [Tile.appendLayers] in H.
  - injection H as <-. exists []. cbn. rewrite app_nil_r. split; reflexivity.
  - unfold Layer.append in H.
    destruct (Layer.body l) as [body |] eqn:Hbody; [| discriminate].
    destruct (IH _ _ H) as (bodies & Hmap & ->).
    exists (body :: bodies). cbn [map concat]. rewrite Hbody, Hmap.
    split; [reflexivity |].
    change (frame 26 body) with ([26] ++ PutUvarint (uint64 (len body)) ++ body).
    unfold appendUvarint. rewrite <- !app_assoc. reflexivity.
Qed.

(** X12: a rendered tile is the concatenation, in insertion order, of one
    length-delimited field 3 per layer holding that layer's submessage;
    it parses as a protobuf message with exactly these fields. *)
Theorem Render_fields (tl : Tile.t) (pb : list Z)
  (Hr : Tile.Render tl = Some pb)
  (Hlen : len pb < 2 ^ 63) :
  exists bodies,
    map Layer.body (Tile.layers tl) = map Some bodies
    /\ pb = concat (map (frame 26) bodies)
    /\ parseMessage pb = Some (map (fun b => (3, WBytes b)) bodies).
Proof.
  unfold Tile.Render in Hr.
  destruct (appendLayers_bodies _ _ _ Hr) as (bodies & Hmap & Hpb).
  cbn [app] in Hpb. exists bodies. split; [exact Hmap |]. split; [exact Hpb |].
  apply parsesTo_message.
  pose proof (parsesTo_frames 26 bodies [] [] ltac:(lia) eq_refl) as Hp.
  rewrite !app_nil_r in Hp. rewrite Hpb. apply Hp; [| apply parsesTo_nil].
  intros p Hin. pose proof (len_frames_elem 26 p bodies Hin).
  rewrite <- Hpb in H. lia.
Qed.

Lemma Render_fields_witness :
  let tl := Tile.mk [Layer.mk [116] [] 0 false 0 0 0 None;
                     Layer.mk [] [] 512 true 0 0 0 None] 0 0 0 None in
  let pb := [26; 5; 10; 1; 116; 120; 2; 26; 5; 40; 128; 4; 120; 2] in
  exists bodies,
    map Layer.body (Tile.layers tl) = map Some bodies
    /\ pb = concat (map (frame 26) bodies)
    /\ parseMessage pb = Some (map (fun b => (3, WBytes b)) bodies).
Proof.
  apply (Render_fields
           (Tile.mk [Layer.mk [116] [] 0 false 0 0 0 None;
                     Layer.mk [] [] 512 true 0 0 0 None] 0 0 0 None)
           [26; 5; 10; 1; 116; 120; 2; 26; 5; 40; 128; 4; 120; 2]);
    vm_compute; reflexivity.
Defined.

(** ** The curve flattener *)

Lemma flatten_spec curve k : forall i d f,
  exists added,
    Feature.geometry (Feature.flatten curve k i d f) = Feature.geometry f ++ added
    /\ length added = k
    /\ Forall (fun c => command.which c = lineTo) added
    /\ Feature.tags (Feature.flatten curve k i d f) = Feature.tags f
    /\ Feature.geomType (Feature.flatten curve k i d f) = Feature.geomType f
    /\ Feature.id (Feature.flatten curve k i d f) = Feature.id f
    /\ Feature.hasID (Feature.flatten curve k i d f) = Feature.hasID f.
Proof.
  induction k as [| k IH]; intros i d f; cbn [Feature.flatten].
  - exists []. rewrite app_nil_r. repeat apply conj; try reflexivity. constructor.
  - destruct (curve (float64_of_int i / d)%float) as [x y].
    destruct (IH (i + 1) d (Feature.LineTo f x y))
      as (added & Hg & Hlen & Hall & Ht & Hgt & Hid & Hhas).
    exists (command.mk lineTo x y :: added).
    rewrite Hg, Ht, Hgt, Hid, Hhas. cbn [Feature.LineTo Feature.push
      Feature.geometry Feature.tags Feature.geomType Feature.id Feature.hasID].
    rewrite <- app_assoc. cbn [app length].
    repeat apply conj; try reflexivity; [lia |].
    constructor; [reflexivity | exact Hall].
Qed.

Lemma segments_ge_4 l : 4 <= Feature.segments l.
Proof.
  unfold Feature.segments. cbv zeta.
  destruct (Z.ltb_spec (int64_of_float (l + 0.5)) 4); lia.
Qed.

(** X13: [QuadraticTo] and [CubicTo] keep the operations a feature already
    has and append LineTo operations only, at least four of them; they
    leave the tags, the id and the geometry type alone. *)
Theorem curves_append_lines (Hypot : float -> float -> float) (f : Feature.t)
  (x1 y1 x2 y2 x3 y3 : float) :
  (exists added,
     Feature.geometry (Feature.QuadraticTo Hypot f x1 y1 x2 y2) =
       Feature.geometry f ++ added
     /\ (4 <= length added)%nat
     /\ Forall (fun c => command.which c = lineTo) added
     /\ Feature.tags (Feature.QuadraticTo Hypot f x1 y1 x2 y2) = Feature.tags f
     /\ Feature.geomType (Feature.QuadraticTo Hypot f x1 y1 x2 y2) =
          Feature.geomType f
     /\ Feature.id (Feature.QuadraticTo Hypot f x1 y1 x2 y2) = Feature.id f
     /\ Feature.hasID (Feature.QuadraticTo Hypot f x1 y1 x2 y2) =
          Feature.hasID f)
  /\ (exists added,
     Feature.geometry (Feature.CubicTo Hypot f x1 y1 x2 y2 x3 y3) =
       Feature.geometry f ++ added
     /\ (4 <= length added)%nat
     /\ Forall (fun c => command.which c = lineTo) added
     /\ Feature.tags (Feature.CubicTo Hypot f x1 y1 x2 y2 x3 y3) = Feature.tags f
     /\ Feature.geomType (Feature.CubicTo Hypot f x1 y1 x2 y2 x3 y3) =
          Feature.geomType f
     /\ Feature.id (Feature.CubicTo Hypot f x1 y1 x2 y2 x3 y3) = Feature.id f
     /\ Feature.hasID (Feature.CubicTo Hypot f x1 y1 x2 y2 x3 y3) =
          Feature.hasID f).
Proof.
  split.
  - unfold Feature.QuadraticTo. destruct (Feature.lastPoint f) as [x0 y0].
    cbv zeta.
    match goal with
    | |- context [Feature.flatten ?c ?k ?i ?d f] =>
        destruct (flatten_spec c k i d f)
          as (added & Hg & Hlen & Hall & Ht & Hgt & Hid & Hhas);
        pose proof (segments_ge_4
          (Hypot (x1 - x0) (y1 - y0) + Hypot (x2 - x1) (y2 - y1))%float) as Hseg
    end.
    exists added. repeat apply conj; try assumption. lia.
  - unfold Feature.CubicTo. destruct (Feature.lastPoint f) as [x0 y0].
    cbv zeta.
    match goal with
    | |- context [Feature.flatten ?c ?k ?i ?d f] =>
        destruct (flatten_spec c k i d f)
          as (added & Hg & Hlen & Hall & Ht & Hgt & Hid & Hhas);
        pose proof (segments_ge_4
          (Hypot (x1 - x0) (y1 - y0) + Hypot (x2 - x1) (y2 - y1)
           + Hypot (x3 - x2) (y3 - y2))%float) as Hseg
    end.
    exists added. repeat apply conj; try assumption. lia.
Qed.

(** ** Tile bounds *)

Lemma pixelXYToLatLon_split Atan Exp px py px' py' lod lat lon lat' lon' :
  pixelXYToLatLon Atan Exp px py lod = Some (lat, lon) ->
  pixelXYToLatLon Atan Exp px' py' lod = Some (lat', lon') ->
  (px = px' -> lon = lon') /\ (py = py' -> lat = lat').
Proof.
  unfold pixelXYToLatLon. destruct (gMapSize lod) as [sz |]; [| discriminate].
  intros H1 H2. injection H1 as <- <-. injection H2 as <- <-.
  split; intros ->; reflexivity.
Qed.

(** X14: at a zoom from 0 to 54 two tiles that are neighbours in a row
    share their common edge exactly, the maxLon of the left one being the
    minLon of the right one, and two tiles that are neighbours in a column
    share theirs, the minLat of the upper one being the maxLat of the
    lower one; the other coordinate of the tiles does not matter. *)
Theorem TileBounds_adjacent (Atan Exp : float -> float)
  (x y x' y' tileZ : Z)
  (Hz : 0 <= tileZ <= 54)
  (Hx : 0 <= x /\ x + 1 < 2 ^ tileZ)
  (Hy : 0 <= y /\ y + 1 < 2 ^ tileZ) :
  (exists left right,
     TileBounds Atan Exp x y' tileZ = Some left
     /\ TileBounds Atan Exp (x + 1) y tileZ = Some right
     /\ maxLon left = minLon right)
  /\ (exists upper lower,
     TileBounds Atan Exp x' y tileZ = Some upper
     /\ TileBounds Atan Exp x (y + 1) tileZ = Some lower
     /\ minLat upper = maxLat lower).
Proof.
  assert (Hsz : 1 <= 2 ^ tileZ <= 2 ^ 54).
  { split; [apply (Z.pow_le_mono_r 2 0 tileZ); lia |].
    apply Z.pow_le_mono_r; lia. }
  assert (Hshape : forall a b, exists lat0 lon0 lat1 lon1,
    pixelXYToLatLon Atan Exp (int64 (Z.shiftl a 8)) (int64 (Z.shiftl b 8)) tileZ
      = Some (lat0, lon0)
    /\ pixelXYToLatLon Atan Exp (int64 (Z.shiftl (int64 (a + 1)) 8))
         (int64 (Z.shiftl (int64 (b + 1)) 8)) tileZ = Some (lat1, lon1)
    /\ TileBounds Atan Exp a b tileZ =
         Some (mkBounds
                 (if 2 ^ tileZ - 1 <=? b then gMinLat else lat1)
                 (if (2 ^ tileZ =? 0) || (Z.rem a (2 ^ tileZ) =? 0)
                  then gMinLon else lon0)
                 (if b <=? 0 then gMaxLat else lat0)
                 (if (2 ^ tileZ =? 0) || (Z.rem a (2 ^ tileZ) =? 2 ^ tileZ - 1)
                  then gMaxLon else lon1))).
  { intros a b. unfold TileBounds.
    destruct (Z.ltb_spec tileZ 0); [lia |].
    rewrite (Z.shiftl_mul_pow2 1 tileZ) by lia. rewrite Z.mul_1_l.
    rewrite (int64_small (2 ^ tileZ)) by lia.
    rewrite (int64_small (2 ^ tileZ - 1)) by lia.
    unfold tileXYToPixelXY.
    destruct (pixelXYToLatLon_some Atan Exp (int64 (Z.shiftl a 8))
                (int64 (Z.shiftl b 8)) tileZ ltac:(lia)) as (lat0 & lon0 & E0).
    destruct (pixelXYToLatLon_some Atan Exp
                (int64 (Z.shiftl (int64 (a + 1)) 8))
                (int64 (Z.shiftl (int64 (b + 1)) 8)) tileZ ltac:(lia))
      as (lat1 & lon1 & E1).
    exists lat0, lon0, lat1, lon1. rewrite E0, E1.
    repeat apply conj; reflexivity. }
  split.
  - destruct (Hshape x y') as (la0 & lo0 & la1 & lo1 & _ & E1 & ->).
    destruct (Hshape (x + 1) y) as (ra0 & ro0 & ra1 & ro1 & F0 & _ & ->).
    eexists. eexists. split; [reflexivity |]. split; [reflexivity |].
    cbn [maxLon minLon].
    rewrite (Z.rem_small x) by lia. rewrite (Z.rem_small (x + 1)) by lia.
    destruct (Z.eqb_spec (2 ^ tileZ) 0); [lia |].
    destruct (Z.eqb_spec x (2 ^ tileZ - 1)); [lia |].
    destruct (Z.eqb_spec (x + 1) 0); [lia |]. cbn [orb].
    rewrite (int64_small (x + 1)) in E1 by lia.
    apply (proj1 (pixelXYToLatLon_split _ _ _ _ _ _ _ _ _ _ _ E1 F0)).
    reflexivity.
  - destruct (Hshape x' y) as (ua0 & uo0 & ua1 & uo1 & _ & E1 & ->).
    destruct (Hshape x (y + 1)) as (wa0 & wo0 & wa1 & wo1 & F0 & _ & ->).
    eexists. eexists. split; [reflexivity |]. split; [reflexivity |].
    cbn [minLat maxLat].
    destruct (Z.leb_spec (2 ^ tileZ - 1) y); [lia |].
    destruct (Z.leb_spec (y + 1) 0); [lia |].
    rewrite (int64_small (y + 1)) in E1 by lia.
    apply (proj2 (pixelXYToLatLon_split _ _ _ _ _ _ _ _ _ _ _ E1 F0)).
    reflexivity.
Qed.

Lemma TileBounds_adjacent_witness :
  (exists left right,
     TileBounds (fun f => f) (fun f => f) 1 3 2 = Some left
     /\ TileBounds (fun f => f) (fun f => f) (1 + 1) 0 2 = Some right
     /\ maxLon left = minLon right)
  /\ (exists upper lower,
     TileBounds (fun f => f) (fun f => f) 3 0 2 = Some upper
     /\ TileBounds (fun f => f) (fun f => f) 1 (0 + 1) 2 = Some lower
     /\ minLat upper = maxLat lower).
Proof.
  apply (TileBounds_adjacent (fun f => f) (fun f => f) 1 0 3 3 2); lia.
Defined.

(** X15: [TileBounds], and with it [NewTile], panics exactly when the zoom
    is negative (the shift count of [1 << tileZ]); for every other zoom,
    also 64 and above where the shifted sizes are 0, both return, and the
    new tile has no layers and carries the bounds [TileBounds] returns. *)
Theorem TileBounds_panics_iff (Atan Exp : float -> float) (tileX tileY tileZ : Z) :
  (TileBounds Atan Exp tileX tileY tileZ = None <-> tileZ < 0)
  /\ (NewTile Atan Exp tileX tileY tileZ = None <-> tileZ < 0)
  /\ (forall tl, NewTile Atan Exp tileX tileY tileZ = Some tl ->
        Tile.layers tl = []
        /\ Tile.rect tl = TileBounds Atan Exp tileX tileY tileZ
        /\ (Tile.x tl, Tile.y tl, Tile.z tl) = (tileX, tileY, tileZ)).
Proof.
  assert (Hb : TileBounds Atan Exp tileX tileY tileZ = None <-> tileZ < 0).
  { unfold TileBounds. destruct (Z.ltb_spec tileZ 0) as [Hneg | Hpos].
    - split; [intros _; exact Hneg | reflexivity].
    - unfold tileXYToPixelXY.
      destruct (pixelXYToLatLon_some Atan Exp (int64 (Z.shiftl tileX 8))
                  (int64 (Z.shiftl tileY 8)) tileZ Hpos) as (lat0 & lon0 & ->).
      destruct (pixelXYToLatLon_some Atan Exp
                  (int64 (Z.shiftl (int64 (tileX + 1)) 8))
                  (int64 (Z.shiftl (int64 (tileY + 1)) 8)) tileZ Hpos)
        as (lat1 & lon1 & ->).
      split; [discriminate | lia]. }
  split; [exact Hb |]. unfold NewTile.
  destruct (TileBounds Atan Exp tileX tileY tileZ) as [b |] eqn:E.
  - split.
    + split; [discriminate |]. intros Hneg. apply Hb in Hneg. discriminate.
    + intros tl H. injection H as <-. repeat apply conj; reflexivity.
  - split.
    + split; [intros _; apply Hb; reflexivity | reflexivity].
    + intros tl H. discriminate.
Qed.

(** ** The builder is append-only *)

Lemma featureExtends_refl f : featureExtends f f.
Proof.
  repeat apply conj; [reflexivity | |]; exists []; rewrite app_nil_r; reflexivity.
Qed.

Lemma featureExtends_trans f g h :
  featureExtends f g -> featureExtends g h -> featureExtends f h.
Proof.
  intros (Hg1 & [t1 Ht1] & [g1 Hgeo1]) (Hg2 & [t2 Ht2] & [g2 Hgeo2]).
  repeat apply conj.
  - congruence.
  - exists (t1 ++ t2). rewrite Ht2, Ht1, app_assoc. reflexivity.
  - exists (g1 ++ g2). rewrite Hgeo2, Hgeo1, app_assoc. reflexivity.
Qed.

Lemma layerExtends_refl l : layerExtends l l.
Proof.
  split; [reflexivity |]. intros j f Hf. exists f.
  split; [exact Hf | apply featureExtends_refl].
Qed.

Lemma layerExtends_trans a b c :
  layerExtends a b -> layerExtends b c -> layerExtends a c.
Proof.
  intros [Hn1 Hf1] [Hn2 Hf2]. split; [congruence |].
  intros j f Hf. destruct (Hf1 j f Hf) as (f' & Hf' & He1).
  destruct (Hf2 j f' Hf') as (f'' & Hf'' & He2).
  exists f''. split; [exact Hf'' | eapply featureExtends_trans; eassumption].
Qed.

Lemma tileExtends_refl tl : tileExtends tl tl.
Proof.
  intros i l Hl. exists l. split; [exact Hl | apply layerExtends_refl].
Qed.

Lemma tileExtends_trans a b c :
  tileExtends a b -> tileExtends b c -> tileExtends a c.
Proof.
  intros H1 H2 i l Hl. destruct (H1 i l Hl) as (l' & Hl' & He1).
  destruct (H2 i l' Hl') as (l'' & Hl'' & He2).
  exists l''. split; [exact Hl'' | eapply layerExtends_trans; eassumption].
Qed.

Lemma onLayer_extends g n tl :
  (forall l, layerExtends l (g l)) -> tileExtends tl (onLayer g n tl).
Proof.
  intros Hg i l Hl. unfold onLayer. cbn [Tile.layers].
  destruct (decide (n = i)) as [-> | Hne].
  - exists (g l). rewrite list_lookup_alter_eq, Hl. split; [reflexivity | apply Hg].
  - exists l. rewrite list_lookup_alter_ne by exact Hne.
    split; [exact Hl | apply layerExtends_refl].
Qed.

Lemma onFeature_extends g n m tl :
  (forall f, featureExtends f (g f)) -> tileExtends tl (onFeature g n m tl).
Proof.
  intros Hg. unfold onFeature. apply onLayer_extends. intros l.
  split; [reflexivity |]. cbn [Layer.features]. intros j f Hf.
  destruct (decide (m = j)) as [-> | Hne].
  - exists (g f). rewrite list_lookup_alter_eq, Hf. split; [reflexivity | apply Hg].
  - exists f. rewrite list_lookup_alter_ne by exact Hne.
    split; [exact Hf | apply featureExtends_refl].
Qed.

Lemma push_extends f c : featureExtends f (Feature.push f c).
Proof.
  repeat apply conj; [reflexivity | exists []; cbn; rewrite app_nil_r; reflexivity |].
  exists [c]. reflexivity.
Qed.

Lemma flatten_extends curve k i d f :
  featureExtends f (Feature.flatten curve k i d f).
Proof.
  destruct (flatten_spec curve k i d f) as (added & Hg & _ & _ & Ht & Hgt & _).
  repeat apply conj; [exact Hgt | exists []; rewrite app_nil_r; exact Ht |].
  exists added. exact Hg.
Qed.

Lemma step_extends Hypot tl o : tileExtends tl (step Hypot tl o).
Proof.
  destruct o; cbn [step].
  - intros i l Hl. exists l. unfold Tile.AddLayer. cbn [Tile.layers].
    rewrite lookup_app_l by (eapply lookup_lt_Some; exact Hl).
    split; [exact Hl | apply layerExtends_refl].
  - apply onLayer_extends. intros ly. split; [reflexivity |].
    intros j f Hf. exists f. split; [exact Hf | apply featureExtends_refl].
  - apply onLayer_extends. intros ly. split; [reflexivity |].
    cbn [Layer.AddFeature Layer.features]. intros j f Hf. exists f.
    rewrite lookup_app_l by (eapply lookup_lt_Some; exact Hf).
    split; [exact Hf | apply featureExtends_refl].
  - apply onFeature_extends. intros ft.
    repeat apply conj; [reflexivity | |]; exists []; cbn; rewrite app_nil_r;
      reflexivity.
  - apply onFeature_extends. intros ft.
    repeat apply conj; [reflexivity | | exists []; cbn; rewrite app_nil_r; reflexivity].
    exists [mkTag k v]. reflexivity.
  - apply onFeature_extends. intros ft. apply push_extends.
  - apply onFeature_extends. intros ft. apply push_extends.
  - apply onFeature_extends. intros ft. apply push_extends.
  - apply onFeature_extends. intros ft. unfold Feature.QuadraticTo.
    destruct (Feature.lastPoint ft). cbv zeta. apply flatten_extends.
  - apply onFeature_extends. intros ft. unfold Feature.CubicTo.
    destruct (Feature.lastPoint ft). cbv zeta. apply flatten_extends.
Qed.

(** X16: the builder is append-only.  Whatever operations follow, a layer
    stays at its position with its name, a feature stays at its position in
    its layer with its geometry type, and the tags and the geometry of a
    feature keep what they had as a prefix: nothing is removed, reordered
    or rewritten, so the pointers handed out by [AddLayer] and [AddFeature]
    stay valid. *)
Theorem build_append_only (Hypot : float -> float -> float) (tl : Tile.t)
  (ops : list op) :
  tileExtends tl (build Hypot tl ops)
  /\ (length (Tile.layers tl) <= length (Tile.layers (build Hypot tl ops)))%nat.
Proof.
  assert (Hext : tileExtends tl (build Hypot tl ops)).
  { unfold build. revert tl.
    induction ops as [| o ops IH]; intros tl; cbn [fold_left].
    - apply tileExtends_refl.
    - eapply tileExtends_trans; [apply step_extends | apply IH]. }
  split; [exact Hext |].
  destruct (Tile.layers tl) as [| l0 ls] eqn:El using rev_ind; [cbn; lia |].
  clear IHls.
  destruct (Hext (length ls) l0) as (l' & Hl' & _).
  { rewrite El. rewrite lookup_app_r by lia.
    rewrite Nat.sub_diag. reflexivity. }
  apply lookup_lt_Some in Hl'. rewrite length_app. cbn [length]. lia.
Qed.

(** ** The geometry stream, command by command *)

Lemma readPairs_length n : forall buf ps rest,
  readPairs n buf = Some (ps, rest) -> length ps = n.
Proof.
  induction n as [| n IH]; intros buf ps rest H; cbn [readPairs] in H.
  - injection H as <- _. reflexivity.
  - destruct (Varint buf) as [dx k]. destruct (k <=? 0); [discriminate |].
    destruct (Varint (drop (Z.to_nat k) buf)) as [dy m].
    destruct (m <=? 0); [discriminate |].
    destruct (readPairs n (drop (Z.to_nat m) (drop (Z.to_nat k) buf)))
      as [[ps' rest'] |] eqn:Hr; [| discriminate].
    injection H as <- _. cbn [length]. f_equal. eapply IH. exact Hr.
Qed.

Lemma decodeGeometry_counts fuel : forall buf cmds,
  decodeGeometry fuel buf = Some cmds ->
  Forall (fun c => length (gpairs c) =
                   if gid c =? 7 then 0%nat else Z.to_nat (gcount c)) cmds.
Proof.
  induction fuel as [| fuel IH]; intros buf cmds H.
  - destruct buf; [| discriminate]. injection H as <-. constructor.
  - destruct buf as [| b buf]; [injection H as <-; constructor |].
    cbn [decodeGeometry] in H.
    destruct (readCommand (b :: buf)) as [[c rest] |] eqn:Hc; [| discriminate].
    destruct (decodeGeometry fuel rest) as [cs |] eqn:Hrest; [| discriminate].
    injection H as <-. constructor; [| eapply IH; exact Hrest].
    unfold readCommand in Hc.
    destruct (Uvarint (b :: buf)) as [ci k]. destruct (k <=? 0); [discriminate |].
    destruct ((Z.land ci 7 =? 1) || (Z.land ci 7 =? 2)) eqn:Hid.
    + destruct (readPairs (Z.to_nat (Z.shiftr ci 3)) (drop (Z.to_nat k) (b :: buf)))
        as [[ps r] |] eqn:Hp; [| discriminate].
      injection Hc as <- _. cbn [gpairs gid gcount].
      apply readPairs_length in Hp. rewrite Hp.
      destruct (Z.eqb_spec (Z.land ci 7) 7) as [E7 |]; [| reflexivity].
      rewrite E7 in Hid. discriminate.
    + destruct (Z.eqb_spec (Z.land ci 7) 7) as [E7 |]; [| discriminate].
      injection Hc as <- _. cbn [gpairs gid gcount]. rewrite E7. reflexivity.
Qed.

(** X17: for a geometry of fewer than 2^29 operations in which no two
    ClosePath are adjacent, the packed stream reads back as exactly one
    command per maximal run of operations of one kind (after the
    synthesized MoveTo, if any), with the opcode 1, 2 or 7 of the kind and
    the length of the run as its count; a MoveTo or LineTo command carries
    as many coordinate pairs as its count and a ClosePath command none, and
    the pairs are the deltas of the points. *)
Theorem geometry_commands_per_run (g : list command.t) (e : float)
  (Hlen : len g < 2 ^ 29)
  (Hruns : Forall (fun r => fst r = closePath -> snd r = 1) (runs g)) :
  exists cmds,
    readGeometry (Feature.appendGeometry g e) = Some cmds
    /\ map commandOf cmds =
         (if needsMove g then [(1, 1)] else []) ++ map commandFor (runs g)
    /\ Forall (fun c => length (gpairs c) =
                        if gid c =? 7 then 0%nat else Z.to_nat (gcount c)) cmds
    /\ concat (map gpairs cmds) =
         (if needsMove g then [(0, 0)] else []) ++ deltas 0 0 (points g e).
Proof.
  assert (Hgoal : exists cmds,
    readGeometry (Feature.appendGeometry g e) = Some cmds
    /\ map commandOf cmds =
         (if needsMove g then [(1, 1)] else []) ++ map commandFor (emitted g)
    /\ concat (map gpairs cmds) =
         (if needsMove g then [(0, 0)] else []) ++ deltas 0 0 (points g e)).
  { unfold Feature.appendGeometry, needsMove.
    destruct g as [| c rest]; [exists []; repeat apply conj; reflexivity |].
    destruct (appendCommands_decode (length (c :: rest)) (c :: rest) e 0 0
                ltac:(lia) Hlen) as (cmds & Hdec & Hpairs & Hcmds).
    destruct (which_eqb (command.which c) moveTo).
    - exists cmds.
      repeat apply conj; [apply decodesTo_read; exact Hdec | exact Hcmds
                         | exact Hpairs].
    - exists (mkG 1 1 [(0, 0)] :: cmds). repeat apply conj.
      + apply decodesTo_read. rewrite appendCommands_acc.
        apply decodesTo_cons; [reflexivity | discriminate | exact Hdec].
      + cbn [map negb app]. rewrite Hcmds. reflexivity.
      + cbn [map concat gpairs negb app]. rewrite Hpairs. reflexivity. }
  destruct Hgoal as (cmds & Hread & Hcmds & Hpairs).
  exists cmds. repeat apply conj.
  - exact Hread.
  - rewrite Hcmds. unfold emitted.
    rewrite emitted_single_close by exact Hruns. reflexivity.
  - unfold readGeometry in Hread. eapply decodeGeometry_counts. exact Hread.
  - exact Hpairs.
Qed.

Lemma geometry_commands_per_run_witness :
  let g := [command.mk moveTo 10 10; command.mk lineTo 20 15;
            command.mk lineTo 5 5; command.mk closePath 0 0] in
  exists cmds,
    readGeometry (Feature.appendGeometry g 4096) = Some cmds
    /\ map commandOf cmds =
         (if needsMove g then [(1, 1)] else []) ++ map commandFor (runs g)
    /\ Forall (fun c => length (gpairs c) =
                        if gid c =? 7 then 0%nat else Z.to_nat (gcount c)) cmds
    /\ concat (map gpairs cmds) =
         (if needsMove g then [(0, 0)] else []) ++ deltas 0 0 (points g 4096).
Proof.
  apply (geometry_commands_per_run
           [command.mk moveTo 10 10; command.mk lineTo 20 15;
            command.mk lineTo 5 5; command.mk closePath 0 0] 4096).
  - vm_compute. reflexivity.
  - repeat constructor; cbn; intros H; first [reflexivity | discriminate H].
Defined.
